(** * TextAnalyzer: word-frequency report of a stemmed document

    A shallow embedding of [TextAnalyzer.cpp] and the properties of its
    counting pass, its ranking and its report.

    - [int] values are integers in [Z]; every [++] and [+ 1] on an [int]
      that can overflow goes through [wrap_int], the 32-bit two's complement
      wrap-around.  Signed overflow is undefined in C++, so the statements
      that depend on the value of a counter are made for inputs of at most
      [INT_MAX] words, where no counter overflows; what the wrap-around
      gives beyond that is stated on its own.
    - [std::unordered_map<string,int>] is a [gmap string Z].  The order in
      which the table is traversed is not fixed by the language: it is a
      parameter [iter] of the development, any enumeration of the table.
    - [std::sort] promises no order among pairs of equal frequency.  It is
      modelled by the insertion sort the library runs on short ranges, which
      leaves a descending list as it is ([std_sort_descending_id]); with
      [iter] arbitrary, every descending arrangement of the table is
      covered.
    - [float] is IEEE binary32, from the Standard Library's [SpecFloat].
    - Files are a finite map from paths to contents; a path that is not in
      the map cannot be opened for reading, and every path can be written.
      The text that the stream prints for a [float] is a parameter,
      [show_float]. *)

From Stdlib Require Import ZArith String Ascii.
From Stdlib Require Import Floats.SpecFloat.
From Equations Require Import Equations.
From stdpp Require Import base gmap list strings pretty sorting.

Local Open Scope Z_scope.

(** ** Machine integers *)

Definition INT_MAX : Z := 2147483647.

(** The value an [int] holds after an arithmetic result [z]. *)
Definition wrap_int (z : Z) : Z := (z + 2 ^ 31) `mod` 2 ^ 32 - 2 ^ 31.

(** [size_t] arithmetic, as in [fileName.size() - 4]. *)
Definition wrap_size_t (z : Z) : Z := z `mod` 2 ^ 64.

(** ** Single precision *)

Definition float_of_int (z : Z) : spec_float := binary_normalize 24 128 z 0 false.

Definition float_div (x y : spec_float) : spec_float := SFdiv 24 128 x y.

Definition float_is_zero (x : spec_float) : bool :=
  match x with S754_zero _ => true | _ => false end.

(** ** The tokenizer: [fileIn >> stem] *)

Definition isspace (c : ascii) : bool :=
  match c with
  | "009" | "010" | "011" | "012" | "013" | " " => true
  | _ => false
  end%char.

(** The extraction first skips leading whitespace ... *)
Fixpoint skip_ws (stream : string) : string :=
  match stream with
  | EmptyString => EmptyString
  | String c rest => if isspace c then skip_ws rest else stream
  end.

(** ... and then takes characters up to the next whitespace or the end. *)
Fixpoint read_word (stream : string) : string * string :=
  match stream with
  | EmptyString => (EmptyString, EmptyString)
  | String c rest =>
      if isspace c then (EmptyString, stream)
      else let '(w, rest') := read_word rest in (String c w, rest')
  end.

(** One [fileIn >> stem]: the word read and the rest of the stream, or
    [None] when no character could be extracted (the stream then fails and
    the loop ends). *)
Definition extract (stream : string) : option (string * string) :=
  match read_word (skip_ws stream) with
  | (EmptyString, _) => None
  | (stem, rest) => Some (stem, rest)
  end.

(** A value together with the equation that binds it, for the case
    analysis of a recursive definition. *)
Definition inspect {A} (a : A) : {b : A | a = b} := exist _ a eq_refl.

(** The words that the successive evaluations of the condition of
    [while (fileIn >> stem)] deliver. *)
Equations? read_tokens (stream : string) : list string
  by wf (String.length stream) lt :=
  read_tokens stream with inspect (extract stream) => {
    | exist _ None _ => [];
    | exist _ (Some (stem, rest)) _ => stem :: read_tokens rest }.
Proof.
  assert (Hskip : ∀ s, (String.length (skip_ws s) ≤ String.length s)%nat).
  { induction s as [|c s IH]; simpl; [lia|]. destruct (isspace c); simpl; lia. }
  assert (Hword : ∀ s w r, read_word s = (w, r) →
            (String.length w + String.length r = String.length s)%nat).
  { induction s as [|c s IH]; simpl; intros w r Hr.
    - by inversion Hr.
    - destruct (isspace c); [by inversion Hr|].
      destruct (read_word s) as [w' r'] eqn:Hs. inversion Hr; subst.
      specialize (IH _ _ eq_refl). simpl. lia. }
  unfold extract in *.
  destruct (read_word (skip_ws stream)) as [w r] eqn:Hw.
  specialize (Hword _ _ _ Hw). specialize (Hskip stream).
  destruct w as [|c w]; [done|].
  match goal with H : Some _ = Some _ |- _ => inversion H; subst end.
  simpl in *. lia.
Qed.

(** ** The counting pass *)

Record counter := Counter {
  uniqueWordCount : list Z;
  totalWordCount : Z;
  stemHash : gmap string Z
}.

Definition count_start : counter := Counter [] 0 ∅.

(** The body of the loop, for the word [stem]. [stemHash[stem]++] creates
    the entry with value 0 when it is absent. *)
Definition count_word (st : counter) (stem : string) : counter :=
  let total := wrap_int (totalWordCount st + 1) in
  Counter
    (if decide (stemHash st !! stem = None)
     then uniqueWordCount st ++ [total] else uniqueWordCount st)
    total
    (<[stem := wrap_int (default 0 (stemHash st !! stem) + 1)]> (stemHash st)).

Definition counting (tokens : list string) : counter :=
  foldl count_word count_start tokens.

(** ** The ranker *)

Definition pairCompare (a b : string * Z) : bool := a.2 >? b.2.

(** [x] goes in front of the first pair that it must precede. *)
Fixpoint sort_insert (x : string * Z) (sorted : list (string * Z))
  : list (string * Z) :=
  match sorted with
  | [] => [x]
  | y :: rest =>
      if pairCompare x y then x :: y :: rest else y :: sort_insert x rest
  end.

Definition std_sort (l : list (string * Z)) : list (string * Z) :=
  foldl (λ sorted x, sort_insert x sorted) [] l.

(** ** The report *)

Record ranked_row := RankedRow {
  row_stem : string;
  row_frequency : Z;
  row_rank : Z;
  row_probability : spec_float
}.

(** The first output loop, at index [i] with [stemFreq] the pairs from
    index [i] on.  [i + 1] cannot overflow, since [i < 50]. *)
Fixpoint ranked_rows (i : Z) (stemFreq : list (string * Z)) (twc : spec_float)
  : list ranked_row :=
  match stemFreq with
  | [] => []
  | p :: rest =>
      if i <? 50
      then RankedRow p.1 p.2 (i + 1) (float_div (float_of_int p.2) twc)
             :: ranked_rows (i + 1) rest twc
      else []
  end.

(** The second output loop, at index [i] with [uniqueWordCount] the
    positions from index [i] on and [size] the value of
    [uniqueWordCount.size()]: each first-seen position with its ordinal.
    The test [i < uniqueWordCount.size()] compares the [int] [i] as a
    [size_t]; once [i] has wrapped around, the loop stops. *)
Fixpoint unique_rows (i : Z) (size : Z) (uniqueWordCount : list Z)
  : list (Z * Z) :=
  match uniqueWordCount with
  | [] => []
  | u :: rest =>
      if wrap_size_t i <? size
      then (u, wrap_int (i + 1)) :: unique_rows (wrap_int (i + 1)) size rest
      else []
  end.

Definition quote : string := String "034"%char EmptyString.
Definition newline : string := String "010"%char EmptyString.

Definition header_ranked : string :=
  quote +:+ "Stem" +:+ quote +:+ ", " +:+ quote +:+ "Frequency" +:+ quote
    +:+ ", " +:+ quote +:+ "Rank" +:+ quote +:+ ", " +:+ quote
    +:+ "Probability" +:+ quote +:+ newline.

Definition header_unique : string :=
  newline +:+ quote +:+ "Total World Count" +:+ quote +:+ ", " +:+ quote
    +:+ "Unique World Count" +:+ quote +:+ newline.

Definition unique_line (r : Z * Z) : string :=
  pretty r.1 +:+ ", " +:+ pretty r.2 +:+ newline.

Fixpoint concat_lines (lines : list string) : string :=
  match lines with
  | [] => EmptyString
  | l :: rest => l +:+ concat_lines rest
  end.

(** [fileName.substr(0, count)]: the first [count] characters, or the whole
    string when it has fewer. *)
Fixpoint take_chars (n : nat) (s : string) : string :=
  match n, s with
  | S n', String c rest => String c (take_chars n' rest)
  | _, _ => EmptyString
  end.

Definition substr0 (count : Z) (s : string) : string :=
  take_chars (Z.to_nat (Z.min count (Z.of_nat (String.length s)))) s.

Definition fileOutput (fileName : string) : string :=
  substr0 (wrap_size_t (Z.of_nat (String.length fileName) - 4)) fileName
    +:+ "_Output.csv".

Section FreqSorter.

(** The order in which [stemHash.begin() .. stemHash.end()] visits the
    table. *)
Variable iter : gmap string Z → list (string * Z).

(** The text of a [float] written with [<<]. *)
Variable show_float : spec_float → string.

Definition stemFreq (st : counter) : list (string * Z) :=
  std_sort (iter (stemHash st)).

Definition ranked_section (st : counter) : list ranked_row :=
  ranked_rows 0 (stemFreq st) (float_of_int (totalWordCount st)).

Definition unique_section (st : counter) : list (Z * Z) :=
  unique_rows 0 (Z.of_nat (length (uniqueWordCount st))) (uniqueWordCount st).

(** The writer evaluates [stemFreq[i].second / twc] once for each row of the
    ranked section, every time with the divisor [twc], the [float] of
    [totalWordCount].  It divides by zero when it writes a row while [twc]
    is a zero. *)
Definition divides_by_zero (st : counter) : Prop :=
  float_is_zero (float_of_int (totalWordCount st)) = true ∧
  ranked_section st ≠ [].

Definition ranked_line (r : ranked_row) : string :=
  quote +:+ row_stem r +:+ quote +:+ ", " +:+ pretty (row_frequency r)
    +:+ ", " +:+ pretty (row_rank r) +:+ ", "
    +:+ show_float (row_probability r) +:+ newline.

Definition report_text (st : counter) : string :=
  header_ranked
    +:+ concat_lines (ranked_line <$> ranked_section st)
    +:+ header_unique
    +:+ concat_lines (unique_line <$> unique_section st).

(** A file that cannot be opened delivers no word. *)
Definition file_tokens (fileName : string) (fs : gmap string string)
  : list string :=
  read_tokens (default EmptyString (fs !! fileName)).

(** The source does not test [fileOut.open]: the run described here is one
    in which the report file can be created or replaced. *)
Definition freqSorter (fileName : string) (fs : gmap string string)
  : gmap string string :=
  <[fileOutput fileName := report_text (counting (file_tokens fileName fs))]> fs.

(** [for (int i = 1; i < argc; i++) freqSorter(argv[i]);] with [n] the
    number of iterations still allowed. *)
Fixpoint main_loop (n : nat) (i : nat) (argv : list string)
  (fs : gmap string string) : gmap string string :=
  match n with
  | O => fs
  | S n' =>
      match argv !! i with
      | Some arg => main_loop n' (S i) argv (freqSorter arg fs)
      | None => fs
      end
  end.

(** The files after the run, and the exit code. *)
Definition main (argv : list string) (fs : gmap string string)
  : gmap string string * Z :=
  (main_loop (length argv) 1 argv fs, 0).

End FreqSorter.

(** ** Quantities the properties speak of *)

Definition sum_list_Z (l : list Z) : Z := foldr Z.add 0 l.

(** The sum of all the counts stored in the table. *)
Definition table_sum (m : gmap string Z) : Z := sum_list_Z ((map_to_list m).*2).

(** The invariant of the counting loop after [n] words, while no counter
    has overflowed. *)
Record counted (n : Z) (st : counter) : Prop := {
  counted_total : totalWordCount st = n;
  counted_sum : table_sum (stemHash st) = n;
  counted_values : map_Forall (λ _ v, 1 ≤ v ≤ n) (stemHash st);
  counted_length : length (uniqueWordCount st) = size (stemHash st);
  counted_sorted : StronglySorted Z.lt (uniqueWordCount st);
  counted_range : Forall (λ u, 1 ≤ u ≤ n) (uniqueWordCount st);
  counted_first : ∀ u, head (uniqueWordCount st) = Some u → u = 1
}.

(** The number of distinct words of a sequence. *)
Definition distinct (tokens : list string) : nat := length (remove_dups tokens).

(** The order the ranking must establish: no later pair has a larger
    frequency than an earlier one. *)
Definition descending : relation (string * Z) := λ a b, b.2 ≤ a.2.

(** A stream that holds nothing but whitespace (the empty one included). *)
Fixpoint all_space (stream : string) : bool :=
  match stream with
  | EmptyString => true
  | String c rest => isspace c && all_space rest
  end.

(** A hundred different words: the decimal numerals of 0 to 99. *)
Definition hundred_words : list string := (λ n : nat, pretty n) <$> seq 0 100.

(** A word as the extraction delivers it: not empty, and without
    whitespace. *)
Fixpoint no_space (w : string) : bool :=
  match w with
  | EmptyString => true
  | String c rest => negb (isspace c) && no_space rest
  end.

Definition is_word (w : string) : Prop := w ≠ EmptyString ∧ no_space w = true.

(** The text of a sequence of words, each followed by the separator [c]. *)
Fixpoint join_words (c : ascii) (words : list string) : string :=
  match words with
  | [] => EmptyString
  | w :: rest => w +:+ String c (join_words c rest)
  end.

(** The number of times [w] occurs in a sequence of words. *)
Definition occurrences (w : string) (tokens : list string) : nat :=
  length (filter (λ x, x = w) tokens).

(** The stem and the frequency that a ranked row shows. *)
Definition row_pair (r : ranked_row) : string * Z := (row_stem r, row_frequency r).

(** Fifty-two different words, the first of them twice. *)
Definition fifty_two_words : list string :=
  "top" :: "top" :: ((λ n : nat, "w" +:+ pretty n) <$> seq 0 51).

(** The number of line ends in a text. *)
Fixpoint newlines (s : string) : nat :=
  match s with
  | EmptyString => 0
  | String c rest => (if Ascii.eqb c "010" then 1 else 0) + newlines rest
  end.

(** * Properties *)

(** ** Machine integers *)

Lemma wrap_int_id z : - 2 ^ 31 ≤ z ≤ INT_MAX → wrap_int z = z.
Proof.
  unfold wrap_int, INT_MAX. intros Hz.
  rewrite Z.mod_small by lia. lia.
Qed.

Lemma wrap_int_add_l a b : wrap_int (wrap_int a + b) = wrap_int (a + b).
Proof.
  unfold wrap_int. f_equal.
  replace ((a + 2 ^ 31) `mod` 2 ^ 32 - 2 ^ 31 + b + 2 ^ 31)
    with ((a + 2 ^ 31) `mod` 2 ^ 32 + b) by lia.
  rewrite Zplus_mod_idemp_l. f_equal. lia.
Qed.

Lemma wrap_int_zero z : 0 ≤ z < 2 ^ 32 → wrap_int z = 0 → z = 0.
Proof.
  unfold wrap_int. intros Hz Hw.
  destruct (decide (z < 2 ^ 31)) as [Hlt|Hge].
  - rewrite Z.mod_small in Hw by lia. lia.
  - replace (z + 2 ^ 31) with (z - 2 ^ 31 + 1 * 2 ^ 32) in Hw by lia.
    rewrite Z_mod_plus_full, Z.mod_small in Hw by lia. lia.
Qed.

(** ** The counting pass *)

Lemma counting_snoc tokens stem :
  counting (tokens ++ [stem]) = count_word (counting tokens) stem.
Proof. unfold counting. by rewrite foldl_snoc. Qed.

Lemma counting_total tokens :
  totalWordCount (counting tokens) = wrap_int (Z.of_nat (length tokens)).
Proof.
  induction tokens as [|stem tokens IH] using rev_ind; [done|].
  rewrite counting_snoc, length_app. simpl. rewrite IH, wrap_int_add_l.
  f_equal. lia.
Qed.

Lemma counting_dom tokens :
  dom (stemHash (counting tokens)) = list_to_set tokens.
Proof.
  induction tokens as [|stem tokens IH] using rev_ind.
  - simpl. by rewrite dom_empty_L.
  - rewrite counting_snoc, list_to_set_snoc_L. simpl.
    rewrite dom_insert_L, IH. apply (comm_L (∪)).
Qed.

Lemma counting_unique_length tokens :
  length (uniqueWordCount (counting tokens)) = size (stemHash (counting tokens)).
Proof.
  induction tokens as [|stem tokens IH] using rev_ind; [done|].
  rewrite counting_snoc. simpl. rewrite map_size_insert.
  case_decide as Hnew.
  - rewrite Hnew, length_app. simpl. lia.
  - destruct (stemHash (counting tokens) !! stem); [done|congruence].
Qed.

Lemma distinct_size tokens :
  distinct tokens = size (list_to_set tokens : gset string).
Proof.
  unfold distinct.
  rewrite <-(size_list_to_set (C:=gset string)) by apply NoDup_remove_dups.
  f_equal. apply set_eq. intros x.
  by rewrite !elem_of_list_to_set, elem_of_remove_dups.
Qed.

Lemma counting_size tokens :
  size (stemHash (counting tokens)) = distinct tokens.
Proof. by rewrite distinct_size, <-counting_dom, size_dom. Qed.

(** *** Sums over the table *)

Lemma sum_list_Z_perm l1 l2 : l1 ≡ₚ l2 → sum_list_Z l1 = sum_list_Z l2.
Proof. induction 1; simpl in *; lia. Qed.

Lemma table_sum_empty : table_sum ∅ = 0.
Proof. unfold table_sum. by rewrite map_to_list_empty. Qed.

Lemma table_sum_insert_new m stem v :
  m !! stem = None → table_sum (<[stem := v]> m) = v + table_sum m.
Proof.
  intros Hnew. unfold table_sum.
  by rewrite (sum_list_Z_perm _ _ (fmap_Permutation snd _ _
    (map_to_list_insert m stem v Hnew))).
Qed.

Lemma table_sum_insert_old m stem v v' :
  m !! stem = Some v → table_sum (<[stem := v']> m) = table_sum m - v + v'.
Proof.
  intros Hold.
  assert (Hm : table_sum m = v + table_sum (delete stem m)).
  { rewrite <-(insert_delete_id m stem v) at 1 by done.
    apply table_sum_insert_new, lookup_delete_eq. }
  rewrite <-insert_delete_eq, table_sum_insert_new by apply lookup_delete_eq.
  lia.
Qed.


(** *** The invariant of the loop *)

Lemma counted_start : counted 0 count_start.
Proof.
  split; simpl; [done|done|apply map_Forall_empty|done|constructor|constructor|done].
Qed.

Lemma counted_step n st stem :
  0 ≤ n < INT_MAX → counted n st → counted (n + 1) (count_word st stem).
Proof.
  intros Hn [Htot Hsum Hval Hlen Hsort Hrange Hfirst].
  assert (Hw : wrap_int (totalWordCount st + 1) = n + 1).
  { rewrite Htot. apply wrap_int_id. unfold INT_MAX in *. lia. }
  assert (Hrange' : Forall (λ u, 1 ≤ u ≤ n + 1) (uniqueWordCount st)).
  { eapply Forall_impl; [exact Hrange|]. simpl. intros; lia. }
  assert (Hval' : ∀ v, 1 ≤ v ≤ n + 1 →
            map_Forall (λ _ v, 1 ≤ v ≤ n + 1) (<[stem := v]> (stemHash st))).
  { intros v Hv. apply map_Forall_insert_2; [done|].
    intros k x Hk. specialize (Hval k x Hk). simpl in *. lia. }
  unfold count_word. rewrite Hw.
  destruct (stemHash st !! stem) as [v|] eqn:Hlook; simpl.
  - (* a word seen before *)
    pose proof (Hval _ _ Hlook) as Hv. simpl in Hv.
    assert (Hv' : wrap_int (v + 1) = v + 1).
    { apply wrap_int_id. unfold INT_MAX in *. lia. }
    rewrite Hv'.
    split; simpl.
    + done.
    + rewrite (table_sum_insert_old _ _ v) by done. lia.
    + apply Hval'. lia.
    + rewrite map_size_insert_Some by eauto. done.
    + done.
    + done.
    + done.
  - (* a new word *)
    replace (wrap_int (0 + 1)) with 1 by done.
    split; simpl.
    + done.
    + rewrite table_sum_insert_new by done. lia.
    + apply Hval'. lia.
    + rewrite length_app, map_size_insert_None by done. simpl. lia.
    + apply StronglySorted_app_2; [|done|repeat constructor].
      intros x1 x2 Hx1 Hx2. apply list_elem_of_singleton in Hx2 as ->.
      rewrite Forall_forall in Hrange. specialize (Hrange _ Hx1). simpl in *. lia.
    + apply Forall_app. split; [done|]. repeat constructor; lia.
    + intros u. destruct (uniqueWordCount st) as [|u0 us] eqn:Hu; simpl.
      * (* the first word of the input *)
        simpl in Hlen. symmetry in Hlen. apply map_size_empty_inv in Hlen.
        rewrite Hlen, table_sum_empty in Hsum. intros [= <-]. lia.
      * intros [= <-]. by apply Hfirst.
Qed.

Lemma counting_counted tokens :
  Z.of_nat (length tokens) ≤ INT_MAX →
  counted (Z.of_nat (length tokens)) (counting tokens).
Proof.
  induction tokens as [|stem tokens IH] using rev_ind; intros Hlen.
  - apply counted_start.
  - rewrite length_app in *. simpl in *. rewrite counting_snoc.
    replace (Z.of_nat (length tokens + 1)) with (Z.of_nat (length tokens) + 1) by lia.
    apply counted_step; [lia|]. apply IH. lia.
Qed.

Lemma StronglySorted_lookup_lt {A} (R : relation A) (l : list A) i j a b :
  StronglySorted R l → (i < j)%nat → l !! i = Some a → l !! j = Some b → R a b.
Proof.
  intros Hl. revert i j. induction Hl as [|x l Hl IH Hx]; intros i j Hij Ha Hb.
  - by rewrite lookup_nil in Ha.
  - destruct j as [|j]; [lia|]. simpl in Hb. destruct i as [|i]; simpl in Ha.
    + injection Ha as ->. rewrite Forall_forall in Hx.
      apply Hx. by eapply list_elem_of_lookup_2.
    + eapply IH; [|done..]. lia.
Qed.



(** C2. For every input, after the counting pass the number of recorded
    first-seen positions is the number of distinct words of the input, which
    is also the number of keys of the frequency table. *)
Theorem unique_positions_count (tokens : list string) :
  length (uniqueWordCount (counting tokens)) = distinct tokens ∧
  size (stemHash (counting tokens)) = distinct tokens.
Proof.
  split; [rewrite counting_unique_length|]; apply counting_size.
Qed.

(** C10. For every input of at most [INT_MAX] words, the recorded first-seen
    positions are strictly increasing, start at 1 when there is one, and all
    lie between 1 and the final [totalWordCount]. *)
Theorem unique_positions_increasing (tokens : list string) :
  Z.of_nat (length tokens) ≤ INT_MAX →
  let st := counting tokens in
  (∀ i j a b, (i < j)%nat →
     uniqueWordCount st !! i = Some a → uniqueWordCount st !! j = Some b →
     a < b) ∧
  (uniqueWordCount st ≠ [] → head (uniqueWordCount st) = Some 1) ∧
  Forall (λ u, 1 ≤ u ≤ totalWordCount st) (uniqueWordCount st).
Proof.
  intros Hlen st.
  destruct (counting_counted tokens Hlen) as [Htot _ _ _ Hsort Hrange Hfirst].
  fold st in Htot, Hsort, Hrange, Hfirst. split; [|split].
  - intros i j a b. by apply StronglySorted_lookup_lt.
  - destruct (uniqueWordCount st) as [|u us]; [done|]. intros _. simpl.
    f_equal. by apply Hfirst.
  - by rewrite Htot.
Qed.

Lemma unique_positions_increasing_witness :
  let st := counting ["a"; "b"; "a"; "c"] in
  (∀ i j a b, (i < j)%nat →
     uniqueWordCount st !! i = Some a → uniqueWordCount st !! j = Some b →
     a < b) ∧
  (uniqueWordCount st ≠ [] → head (uniqueWordCount st) = Some 1) ∧
  Forall (λ u, 1 ≤ u ≤ totalWordCount st) (uniqueWordCount st).
Proof. apply (unique_positions_increasing ["a"; "b"; "a"; "c"]). by vm_compute. Defined.

(** ** The ranker *)

Lemma sort_insert_perm x l : sort_insert x l ≡ₚ x :: l.
Proof.
  induction l as [|y l IH]; simpl; [done|].
  destruct (pairCompare x y); [done|].
  by rewrite IH, Permutation_swap.
Qed.

Lemma sort_insert_sorted x l :
  StronglySorted descending l → StronglySorted descending (sort_insert x l).
Proof.
  induction 1 as [|y l Hl IH Hy]; simpl.
  - repeat constructor.
  - unfold pairCompare. destruct (Z.gtb_spec x.2 y.2) as [Hgt|Hle].
    + constructor; [by constructor|]. constructor; [unfold descending; lia|].
      eapply Forall_impl; [exact Hy|]. unfold descending. intros; lia.
    + constructor; [done|]. rewrite sort_insert_perm.
      constructor; [unfold descending; lia|done].
Qed.

Lemma foldl_sort_insert_perm sorted l :
  foldl (λ sorted x, sort_insert x sorted) sorted l ≡ₚ l ++ sorted.
Proof.
  revert sorted. induction l as [|x l IH]; intros sorted; simpl; [done|].
  by rewrite IH, sort_insert_perm, Permutation_middle.
Qed.

Lemma foldl_sort_insert_sorted sorted l :
  StronglySorted descending sorted →
  StronglySorted descending (foldl (λ sorted x, sort_insert x sorted) sorted l).
Proof.
  revert sorted. induction l as [|x l IH]; intros sorted Hs; simpl; [done|].
  by apply IH, sort_insert_sorted.
Qed.

Lemma std_sort_perm l : std_sort l ≡ₚ l.
Proof. unfold std_sort. by rewrite foldl_sort_insert_perm, app_nil_r. Qed.

Lemma std_sort_sorted l : StronglySorted descending (std_sort l).
Proof. apply foldl_sort_insert_sorted. constructor. Qed.

(** A list that already descends is returned as it is; so every descending
    arrangement of the table is the ranking of some traversal order. *)
Lemma sort_insert_last x l :
  Forall (λ y, x.2 ≤ y.2) l → sort_insert x l = l ++ [x].
Proof.
  induction 1 as [|y l Hy _ IH]; simpl; [done|].
  unfold pairCompare. destruct (Z.gtb_spec x.2 y.2); [lia|]. by rewrite IH.
Qed.

Lemma std_sort_descending_id l :
  StronglySorted descending l → std_sort l = l.
Proof.
  unfold std_sort. intros Hl.
  assert (Hgen : ∀ sorted, StronglySorted descending (sorted ++ l) →
            foldl (λ sorted x, sort_insert x sorted) sorted l = sorted ++ l).
  { clear Hl. induction l as [|x l IH]; intros sorted Hs; simpl.
    - by rewrite app_nil_r.
    - rewrite sort_insert_last.
      + rewrite IH; by rewrite <-app_assoc.
      + apply Forall_forall. intros y Hy.
        apply (StronglySorted_app_1_elem_of descending sorted (x :: l) y x Hs Hy).
        by left. }
  by apply (Hgen []).
Qed.

Lemma std_sort_length l : length (std_sort l) = length l.
Proof. by rewrite std_sort_perm. Qed.

(** ** The rows of the ranked section *)

Lemma ranked_rows_length i l twc :
  0 ≤ i → length (ranked_rows i l twc) = Nat.min (Z.to_nat (50 - i)) (length l).
Proof.
  revert i. induction l as [|p l IH]; intros i Hi; simpl; [lia|].
  destruct (Z.ltb_spec i 50) as [Hlt|Hge]; simpl.
  - rewrite IH by lia. lia.
  - lia.
Qed.

Lemma ranked_rows_lookup i l twc k r :
  ranked_rows i l twc !! k = Some r →
  ∃ p, l !! k = Some p ∧
       r = RankedRow p.1 p.2 (i + Z.of_nat k + 1) (float_div (float_of_int p.2) twc).
Proof.
  revert i k. induction l as [|p l IH]; intros i k; simpl; [done|].
  destruct (i <? 50); [|done].
  destruct k as [|k]; simpl.
  - intros [= <-]. exists p. split; [done|]. do 2 f_equal. lia.
  - intros Hk. destruct (IH _ _ Hk) as (q & Hq & ->).
    exists q. split; [done|]. do 2 f_equal. lia.
Qed.

(** C4. For every frequency table, in whatever order it is traversed, the
    ranker returns the pairs of the table with frequencies that never
    increase: the pair at position [i] has a frequency at least that of the
    pair at any position [j] with [i <= j]. The ranked row written at
    0-based position [i] is that of the [i]-th pair and carries rank
    [i + 1]. *)
Theorem ranking_descends_with_ranks
    (iter : gmap string Z → list (string * Z)) (st : counter) :
  let ranked := stemFreq iter st in
  ranked ≡ₚ iter (stemHash st) ∧
  (∀ i j a b, (i ≤ j)%nat → ranked !! i = Some a → ranked !! j = Some b →
     b.2 ≤ a.2) ∧
  (∀ i r, ranked_section iter st !! i = Some r →
     row_rank r = Z.of_nat i + 1 ∧
     ranked !! i = Some (row_stem r, row_frequency r)).
Proof.
  intros ranked. split; [apply std_sort_perm|]. split.
  - intros i j a b Hij Ha Hb.
    destruct (decide (i = j)) as [->|Hne].
    + rewrite Ha in Hb. injection Hb as ->. lia.
    + apply (StronglySorted_lookup_lt descending ranked i j); [|lia|done..].
      apply std_sort_sorted.
  - intros i r Hr. apply ranked_rows_lookup in Hr as ([stem freq] & Hp & ->).
    simpl. split; [lia|done].
Qed.

(** ** The tokenizer *)

Lemma read_tokens_step stream :
  read_tokens stream =
    match extract stream with
    | None => []
    | Some (stem, rest) => stem :: read_tokens rest
    end.
Proof.
  simp read_tokens.
  destruct (inspect (extract stream)) as [[[stem rest]|] Heq]; simpl;
    by rewrite Heq.
Qed.

Lemma skip_ws_all_space stream :
  all_space stream = true → skip_ws stream = EmptyString.
Proof.
  induction stream as [|c rest IH]; simpl; [done|].
  destruct (isspace c); [exact IH|done].
Qed.

Lemma read_tokens_all_space stream :
  all_space stream = true → read_tokens stream = [].
Proof.
  intros Hs. rewrite read_tokens_step. unfold extract.
  by rewrite skip_ws_all_space.
Qed.

(** ** Single precision: the conversion of a non-zero [int] is not zero *)

Lemma digits2_pos_lower p : 2 ^ (Z.pos (digits2_pos p) - 1) ≤ Z.pos p.
Proof.
  induction p as [p IH|p IH|]; simpl digits2_pos; [| |done];
    rewrite Pos2Z.inj_succ;
    replace (Z.succ (Z.pos (digits2_pos p)) - 1)
      with (Z.succ (Z.pos (digits2_pos p) - 1)) by lia;
    rewrite Z.pow_succ_r by lia; lia.
Qed.

Lemma shr_1_m mrs : 0 ≤ shr_m mrs → shr_m (shr_1 mrs) = shr_m mrs `div` 2.
Proof.
  destruct mrs as [[|[p|p|]|p] r s]; simpl; intros Hm; try done; try lia.
  - apply (Z.div_unique_pos _ 2 _ 1); lia.
  - apply (Z.div_unique_pos _ 2 _ 0); lia.
Qed.

Lemma iter_shr_1_m n mrs :
  0 ≤ shr_m mrs →
  shr_m (SpecFloat.iter_pos shr_1 n mrs) = shr_m mrs `div` 2 ^ Z.pos n.
Proof.
  revert mrs. induction n as [n IH|n IH|]; intros mrs Hm; simpl SpecFloat.iter_pos.
  - assert (Hpow : 0 < 2 ^ Z.pos n) by (apply Z.pow_pos_nonneg; lia).
    assert (H1 : 0 ≤ shr_m (shr_1 mrs)).
    { rewrite shr_1_m by done. apply Z.div_pos; lia. }
    assert (H2 : 0 ≤ shr_m (SpecFloat.iter_pos shr_1 n (shr_1 mrs))).
    { rewrite IH by done. apply Z.div_pos; lia. }
    rewrite !IH, shr_1_m by done.
    rewrite !Z.div_div by lia.
    f_equal. replace (Z.pos n~1) with (1 + Z.pos n + Z.pos n) by lia.
    rewrite !Z.pow_add_r by lia. lia.
  - assert (Hpow : 0 < 2 ^ Z.pos n) by (apply Z.pow_pos_nonneg; lia).
    assert (H2 : 0 ≤ shr_m (SpecFloat.iter_pos shr_1 n mrs)).
    { rewrite IH by done. apply Z.div_pos; lia. }
    rewrite !IH by done.
    rewrite !Z.div_div by lia.
    f_equal. replace (Z.pos n~0) with (Z.pos n + Z.pos n) by lia.
    rewrite !Z.pow_add_r by lia. lia.
  - by apply shr_1_m.
Qed.

Lemma shr_record_of_loc_m m l : shr_m (shr_record_of_loc m l) = m.
Proof. by destruct l as [|[]]. Qed.

Lemma shr_fexp_positive m e l :
  0 < m → - 148 ≤ e →
  0 < shr_m (shr_fexp 24 128 m e l).1 ∧ - 148 ≤ (shr_fexp 24 128 m e l).2.
Proof.
  intros Hm He. destruct m as [|p|p]; [lia| |lia].
  unfold shr_fexp, shr, fexp, emin. simpl Zdigits2.
  pose proof (digits2_pos_lower p) as Hd.
  destruct (Z.max (Z.pos (digits2_pos p) + e - 24) (3 - 128 - 24) - e)
    as [|n|n] eqn:Hn; simpl; rewrite ?shr_record_of_loc_m; try (split; lia).
  rewrite iter_shr_1_m by (rewrite shr_record_of_loc_m; lia).
  rewrite shr_record_of_loc_m. split; [|lia].
  apply Z.div_str_pos. split; [by apply Z.pow_pos_nonneg|].
  etrans; [|exact Hd]. apply Z.pow_le_mono_r; lia.
Qed.

Lemma round_nearest_even_positive m l : 0 < m → 0 < round_nearest_even m l.
Proof. destruct l as [|[]]; simpl; try done; try lia. destruct (Z.even m); lia. Qed.

Lemma binary_round_aux_nonzero sx m e l :
  0 < m → - 148 ≤ e →
  float_is_zero (binary_round_aux 24 128 sx m e l) = false.
Proof.
  intros Hm He. unfold binary_round_aux.
  destruct (shr_fexp_positive m e l Hm He) as [Hm1 He1].
  destruct (shr_fexp 24 128 m e l) as [mrs1 e1]. simpl in Hm1, He1.
  pose proof (round_nearest_even_positive (shr_m mrs1) (loc_of_shr_record mrs1) Hm1) as Hr.
  destruct (shr_fexp_positive _ _ loc_Exact Hr He1) as [Hm2 _].
  destruct (shr_fexp 24 128 _ e1 loc_Exact) as [mrs2 e2]. simpl in Hm2.
  destruct (shr_m mrs2) as [|p|p]; [lia| |lia].
  by destruct (e2 <=? 128 - 24).
Qed.

Lemma float_of_int_nonzero z : z ≠ 0 → float_is_zero (float_of_int z) = false.
Proof.
  intros Hz. unfold float_of_int, binary_normalize.
  destruct z as [|p|p]; [done| |]; unfold binary_round, shl_align, fexp, emin;
    destruct (Z.max (Z.pos (digits2_pos p) + 0 - 24) (3 - 128 - 24) - 0) eqn:Hn;
    apply binary_round_aux_nonzero; lia.
Qed.

(** ** The report *)

Section Report.

Variable iter : gmap string Z → list (string * Z).

(** All that is known of the traversal: it visits each entry of the table
    once. *)
Hypothesis iter_perm : ∀ m, iter m ≡ₚ map_to_list m.

Variable show_float : spec_float → string.

Lemma stemFreq_length st : length (stemFreq iter st) = size (stemHash st).
Proof.
  unfold stemFreq. by rewrite std_sort_length, iter_perm, length_map_to_list.
Qed.

Lemma ranked_section_length st :
  length (ranked_section iter st) = Nat.min 50 (size (stemHash st)).
Proof.
  unfold ranked_section. rewrite ranked_rows_length, stemFreq_length by done.
  done.
Qed.

Lemma iter_empty : iter ∅ = [].
Proof.
  apply Permutation_nil_r. by rewrite iter_perm, map_to_list_empty.
Qed.

(** C5. Whatever the input, the ranked section of the report has exactly
    min(50, number of distinct words) data rows; with 100 distinct words it
    has exactly 50. *)
Theorem ranked_section_top_50 (tokens : list string) :
  length (ranked_section iter (counting tokens)) = Nat.min 50 (distinct tokens) ∧
  (distinct tokens = 100%nat →
   length (ranked_section iter (counting tokens)) = 50%nat).
Proof.
  rewrite ranked_section_length, counting_size. split; [done|].
  by intros ->.
Qed.

Lemma ranked_section_entry st r :
  r ∈ ranked_section iter st →
  stemHash st !! row_stem r = Some (row_frequency r) ∧
  row_probability r
    = float_div (float_of_int (row_frequency r)) (float_of_int (totalWordCount st)).
Proof.
  intros Hr. apply list_elem_of_lookup in Hr as [k Hk].
  apply ranked_rows_lookup in Hk as ([stem freq] & Hp & ->). simpl.
  split; [|done]. apply elem_of_map_to_list. rewrite <-iter_perm.
  apply list_elem_of_lookup_2 in Hp. unfold stemFreq in Hp.
  by rewrite std_sort_perm in Hp.
Qed.

Lemma ranked_section_start : ranked_section iter count_start = [].
Proof. unfold ranked_section, stemFreq. simpl. by rewrite iter_empty. Qed.

(** C3, as the code has it. For the words "a", "a", "b" the counting pass
    ends with the table {a: 2, b: 1}, [totalWordCount] 3 and the first-seen
    positions 1 and 3 ("b" is the third word read); the first ranked row is
    "a" with frequency 2, rank 1 and probability the binary32 quotient of 2
    by 3, which is 11184811 / 2^24. *)
Theorem example_a_a_b :
  let st := counting ["a"; "a"; "b"] in
  read_tokens "a a b" = ["a"; "a"; "b"] ∧
  stemHash st = {["a" := 2; "b" := 1]} ∧
  totalWordCount st = 3 ∧
  uniqueWordCount st = [1; 3] ∧
  head (ranked_section iter st)
    = Some (RankedRow "a" 2 1 (float_div (float_of_int 2) (float_of_int 3))) ∧
  float_div (float_of_int 2) (float_of_int 3) = S754_finite false 11184811 (-24).
Proof.
  intros st. do 2 (split; [by vm_compute|]). do 2 (split; [done|]).
  split; [|by vm_compute].
  assert (Hm : map_to_list (stemHash st) = [("a", 2); ("b", 1)]) by by vm_compute.
  pose proof (iter_perm (stemHash st)) as Hperm. rewrite Hm in Hperm.
  symmetry in Hperm. apply Permutation_length_2_inv in Hperm.
  unfold ranked_section, stemFreq.
  destruct Hperm as [-> | ->]; by vm_compute.
Qed.

(** C6. A file that is empty or holds only whitespace delivers no word:
    [totalWordCount] is 0, the table and the first-seen positions are empty,
    and the report is written all the same, with its two header rows and no
    data row. *)
Theorem blank_input_report (contents : string) :
  all_space contents = true →
  let st := counting (read_tokens contents) in
  totalWordCount st = 0 ∧ stemHash st = ∅ ∧ uniqueWordCount st = [] ∧
  ranked_section iter st = [] ∧ unique_section st = [] ∧
  report_text iter show_float st = header_ranked +:+ header_unique ∧
  ∀ fileName fs, fs !! fileName = Some contents →
    freqSorter iter show_float fileName fs !! fileOutput fileName
      = Some (header_ranked +:+ header_unique).
Proof.
  intros Hblank st. unfold st. rewrite (read_tokens_all_space _ Hblank).
  change (counting []) with count_start.
  assert (Htext : report_text iter show_float count_start
                  = header_ranked +:+ header_unique).
  { unfold report_text. by rewrite ranked_section_start. }
  do 3 (split; [done|]). split; [apply ranked_section_start|].
  split; [done|]. split; [done|].
  intros fileName fs Hfile. unfold freqSorter, file_tokens.
  rewrite lookup_insert_eq, Hfile. simpl.
  rewrite (read_tokens_all_space _ Hblank). by f_equal.
Qed.

(** X23. For every input of at most [INT_MAX] words, [totalWordCount] is 0
    only when no row is written, so that no division is evaluated; every
    division that is evaluated has a dividend between 1 and
    [totalWordCount] and a divisor, the [float] of [totalWordCount], that is
    not zero.  On such an input the writer does not divide by zero. *)
Theorem division_only_by_positive_total (tokens : list string) :
  Z.of_nat (length tokens) ≤ INT_MAX →
  let st := counting tokens in
  (totalWordCount st = 0 → ranked_section iter st = []) ∧
  (∀ r, r ∈ ranked_section iter st →
     1 ≤ row_frequency r ≤ totalWordCount st ∧
     row_probability r
       = float_div (float_of_int (row_frequency r))
                   (float_of_int (totalWordCount st)) ∧
     float_is_zero (float_of_int (totalWordCount st)) = false) ∧
  ¬ divides_by_zero iter st.
Proof.
  intros Hlen st.
  destruct (counting_counted tokens Hlen) as [Htot _ Hval _ _ _ _].
  fold st in Htot, Hval.
  assert (Hrows : ∀ r, r ∈ ranked_section iter st →
            1 ≤ row_frequency r ≤ totalWordCount st ∧
            row_probability r
              = float_div (float_of_int (row_frequency r))
                          (float_of_int (totalWordCount st)) ∧
            float_is_zero (float_of_int (totalWordCount st)) = false).
  { intros r Hr. apply ranked_section_entry in Hr as [Hlook Hprob].
    pose proof (Hval _ _ Hlook) as Hfreq. simpl in Hfreq. rewrite Htot.
    rewrite Htot in Hprob. split; [done|]. split; [done|].
    apply float_of_int_nonzero. lia. }
  assert (Hzero : totalWordCount st = 0 → ranked_section iter st = []).
  { intros Hz. destruct (ranked_section iter st) as [|r rows] eqn:Hsec; [done|].
    destruct (Hrows r) as [Hfreq _]; [rewrite ?Hsec; left|]. lia. }
  split; [done|]. split; [done|].
  intros [Hz Hne]. destruct (ranked_section iter st) as [|r rows]; [done|].
  destruct (Hrows r) as (_ & _ & Hnz); [left|]. congruence.
Qed.

End Report.

Lemma ranked_section_top_50_witness :
  length (ranked_section map_to_list (counting hundred_words)) = 50%nat.
Proof.
  apply (proj2 (ranked_section_top_50 map_to_list
                  (λ m, reflexivity (map_to_list m)) hundred_words)).
  by vm_compute.
Defined.

Lemma example_a_a_b_witness :
  let st := counting ["a"; "a"; "b"] in
  read_tokens "a a b" = ["a"; "a"; "b"] ∧
  stemHash st = {["a" := 2; "b" := 1]} ∧
  totalWordCount st = 3 ∧
  uniqueWordCount st = [1; 3] ∧
  head (ranked_section map_to_list st)
    = Some (RankedRow "a" 2 1 (float_div (float_of_int 2) (float_of_int 3))) ∧
  float_div (float_of_int 2) (float_of_int 3) = S754_finite false 11184811 (-24).
Proof.
  apply (example_a_a_b map_to_list). intros m. reflexivity.
Defined.

(** C3, as the spec has it, fails on the code: the second first-seen
    position is 3, not 2. *)
Lemma second_position_is_three :
  uniqueWordCount (counting ["a"; "a"; "b"]) = [1; 3] ∧
  uniqueWordCount (counting ["a"; "a"; "b"]) ≠ [1; 2].
Proof. split; by vm_compute. Qed.

Lemma blank_input_report_witness :
  let contents := String " " (String "010" (String "009" EmptyString)) in
  let st := counting (read_tokens contents) in
  totalWordCount st = 0 ∧ stemHash st = ∅ ∧ uniqueWordCount st = [] ∧
  ranked_section map_to_list st = [] ∧ unique_section st = [] ∧
  report_text map_to_list (λ _, EmptyString) st = header_ranked +:+ header_unique ∧
  ∀ fileName fs, fs !! fileName = Some contents →
    freqSorter map_to_list (λ _, EmptyString) fileName fs !! fileOutput fileName
      = Some (header_ranked +:+ header_unique).
Proof.
  apply (blank_input_report map_to_list (λ m, reflexivity (map_to_list m))
           (λ _, EmptyString)).
  reflexivity.
Defined.

Lemma division_only_by_positive_total_witness :
  let st := counting ["a"; "a"; "b"] in
  (totalWordCount st = 0 → ranked_section map_to_list st = []) ∧
  (∀ r, r ∈ ranked_section map_to_list st →
     1 ≤ row_frequency r ≤ totalWordCount st ∧
     row_probability r
       = float_div (float_of_int (row_frequency r))
                   (float_of_int (totalWordCount st)) ∧
     float_is_zero (float_of_int (totalWordCount st)) = false) ∧
  ¬ divides_by_zero map_to_list st.
Proof.
  apply (division_only_by_positive_total map_to_list
           (λ m, reflexivity (map_to_list m)) ["a"; "a"; "b"]).
  by vm_compute.
Defined.

Lemma counting_no_words tokens :
  Z.of_nat (length tokens) < 2 ^ 32 →
  totalWordCount (counting tokens) = 0 → tokens = [].
Proof.
  intros Hlen. rewrite counting_total. intros Hz.
  apply wrap_int_zero in Hz; [|lia]. by destruct tokens.
Qed.

(** ** The name of the output file *)

Lemma string_app_cons c s t : String c s +:+ t = String c (s +:+ t).
Proof. reflexivity. Qed.

Lemma string_length_app s t :
  String.length (s +:+ t) = (String.length s + String.length t)%nat.
Proof.
  induction s as [|c s IH]; [done|].
  rewrite string_app_cons. simpl. by rewrite IH.
Qed.

Lemma take_chars_app s t : take_chars (String.length s) (s +:+ t) = s.
Proof.
  induction s as [|c s IH]; [by destruct t|].
  rewrite string_app_cons. simpl. by rewrite IH.
Qed.

(** C7. A file name of at least 4 characters (and of a length that a
    [size_t] holds) is mapped to itself without its last 4 characters,
    whatever they are, followed by "_Output.csv"; so "notes.txt" gives
    "notes_Output.csv" and "a.txt" gives "a_Output.csv". *)
Theorem output_name_strips_four :
  (∀ base ext : string,
     String.length ext = 4%nat →
     Z.of_nat (String.length (base +:+ ext)) < 2 ^ 64 →
     fileOutput (base +:+ ext) = base +:+ "_Output.csv") ∧
  fileOutput "notes.txt" = "notes_Output.csv" ∧
  fileOutput "a.txt" = "a_Output.csv".
Proof.
  split; [|by vm_compute].
  intros base ext Hext Hsize. unfold fileOutput, substr0, wrap_size_t.
  rewrite string_length_app in *. rewrite Hext in *.
  rewrite Z.mod_small by lia.
  replace (Z.to_nat _) with (String.length base) by lia.
  by rewrite take_chars_app.
Qed.

Lemma output_name_strips_four_witness :
  fileOutput ("report" +:+ ".dat") = "report" +:+ "_Output.csv".
Proof.
  apply (proj1 output_name_strips_four "report" ".dat"); by vm_compute.
Defined.

Lemma take_chars_all s : take_chars (String.length s) s = s.
Proof. induction s as [|c s IH]; simpl; by rewrite ?IH. Qed.

(** X11. A name of fewer than 4 characters loses nothing: [size() - 4] wraps
    around to a large [size_t], [substr] then returns the whole name, and
    the output name is the input name followed by "_Output.csv". *)
Lemma fileOutput_short fileName :
  (String.length fileName < 4)%nat →
  fileOutput fileName = fileName +:+ "_Output.csv".
Proof.
  intros Hshort. unfold fileOutput, substr0, wrap_size_t.
  replace (Z.of_nat (String.length fileName) - 4)
    with (Z.of_nat (String.length fileName) + 2 ^ 64 - 4 + (- 1) * 2 ^ 64) by lia.
  rewrite Z_mod_plus_full, Z.mod_small by lia.
  rewrite Z.min_r by lia. by rewrite Nat2Z.id, take_chars_all.
Qed.

(** ** The driver *)

Section Driver.

Variable iter : gmap string Z → list (string * Z).
Variable show_float : spec_float → string.

Lemma main_loop_drop n i argv fs :
  (length argv ≤ n + i)%nat →
  main_loop iter show_float n i argv fs
    = foldl (λ fs arg, freqSorter iter show_float arg fs) fs (drop i argv).
Proof.
  revert i fs. induction n as [|n IH]; intros i fs Hn; simpl.
  - by rewrite drop_ge by lia.
  - destruct (argv !! i) as [arg|] eqn:Harg.
    + rewrite (drop_S _ _ _ Harg). simpl. apply IH. lia.
    + apply lookup_ge_None in Harg. by rewrite drop_ge by lia.
Qed.

(** C9. For every command line, the driver runs [freqSorter] once for each
    argument after the program name, in the order of the arguments, and the
    program returns 0.  A run keeps nothing for the next: the report it
    writes is determined by the content of its own input file, and it
    changes no file but its report. *)
Theorem main_runs_each_argument (argv : list string) (fs : gmap string string) :
  main iter show_float argv fs
    = (foldl (λ fs arg, freqSorter iter show_float arg fs) fs (drop 1 argv), 0) ∧
  (∀ arg fs1 fs2, fs1 !! arg = fs2 !! arg →
     freqSorter iter show_float arg fs1 !! fileOutput arg
       = freqSorter iter show_float arg fs2 !! fileOutput arg) ∧
  (∀ arg fs' path, path ≠ fileOutput arg →
     freqSorter iter show_float arg fs' !! path = fs' !! path).
Proof.
  split; [|split].
  - unfold main. f_equal. apply main_loop_drop. lia.
  - intros arg fs1 fs2 Hsame. unfold freqSorter, file_tokens.
    by rewrite !lookup_insert_eq, Hsame.
  - intros arg fs' path Hpath. unfold freqSorter.
    by rewrite lookup_insert_ne.
Qed.

End Driver.

(** ** A run on one file *)

Example read_tokens_lines :
  read_tokens ("  to be" +:+ newline +:+ "or not" +:+ newline)
    = ["to"; "be"; "or"; "not"].
Proof. by vm_compute. Qed.

Example main_one_file :
  main map_to_list (λ _, "p") ["prog"; "in.txt"] {["in.txt" := "a a b"]}
    = (<["in_Output.csv" :=
           header_ranked
             +:+ quote +:+ "a" +:+ quote +:+ ", 2, 1, p" +:+ newline
             +:+ quote +:+ "b" +:+ quote +:+ ", 1, 2, p" +:+ newline
             +:+ header_unique
             +:+ "1, 1" +:+ newline
             +:+ "3, 2" +:+ newline]> {["in.txt" := "a a b"]}, 0).
Proof. by vm_compute. Qed.

Example main_missing_file :
  main map_to_list (λ _, "p") ["prog"; "none.txt"] ∅
    = ({["none_Output.csv" := header_ranked +:+ header_unique]}, 0).
Proof. by vm_compute. Qed.

(** * Further properties of the code *)

(** ** The comparator of the ranking *)

(** X1. [pairCompare] is a strict weak ordering, as [std::sort] requires of
    its comparator: no pair precedes itself, precedence is transitive, and
    so is being tied (neither pair precedes the other). *)
Theorem pairCompare_strict_weak_order :
  (∀ a, pairCompare a a = false) ∧
  (∀ a b c, pairCompare a b = true → pairCompare b c = true →
     pairCompare a c = true) ∧
  (∀ a b c,
     pairCompare a b = false → pairCompare b a = false →
     pairCompare b c = false → pairCompare c b = false →
     pairCompare a c = false ∧ pairCompare c a = false).
Proof.
  unfold pairCompare. split; [|split].
  - intros a. destruct (Z.gtb_spec a.2 a.2); [lia|done].
  - intros a b c.
    destruct (Z.gtb_spec a.2 b.2), (Z.gtb_spec b.2 c.2), (Z.gtb_spec a.2 c.2);
      try done; lia.
  - intros a b c.
    destruct (Z.gtb_spec a.2 b.2), (Z.gtb_spec b.2 a.2),
      (Z.gtb_spec b.2 c.2), (Z.gtb_spec c.2 b.2),
      (Z.gtb_spec a.2 c.2), (Z.gtb_spec c.2 a.2); try done; lia.
Qed.

(** ** The tokenizer *)

Lemma string_app_nil_l s : EmptyString +:+ s = s.
Proof. reflexivity. Qed.

Lemma read_word_word s : no_space (read_word s).1 = true.
Proof.
  induction s as [|c s IH]; simpl; [done|].
  destruct (isspace c) eqn:Hc; [done|].
  destruct (read_word s) as [w r]. simpl in *. by rewrite Hc, IH.
Qed.

Lemma read_word_length s :
  (String.length (read_word s).1 + String.length (read_word s).2
   = String.length s)%nat.
Proof.
  induction s as [|c s IH]; simpl; [done|].
  destruct (isspace c); [done|].
  destruct (read_word s) as [w r]. simpl in *. lia.
Qed.

Lemma skip_ws_length s : (String.length (skip_ws s) ≤ String.length s)%nat.
Proof.
  induction s as [|c s IH]; simpl; [lia|]. destruct (isspace c); simpl; lia.
Qed.

Lemma extract_Some s stem rest :
  extract s = Some (stem, rest) →
  is_word stem ∧ (String.length rest < String.length s)%nat.
Proof.
  unfold extract. pose proof (read_word_word (skip_ws s)) as Hw.
  pose proof (read_word_length (skip_ws s)) as Hl.
  pose proof (skip_ws_length s) as Hs.
  destruct (read_word (skip_ws s)) as [[|c w] r]; [done|].
  intros [= <- <-]. simpl in *. split; [by split|lia].
Qed.

Lemma read_tokens_ind (P : string → Prop) :
  (∀ s, (∀ stem rest, extract s = Some (stem, rest) → P rest) → P s) →
  ∀ s, P s.
Proof.
  intros Hstep s. remember (String.length s) as n eqn:Hn. revert s Hn.
  induction (lt_wf n) as [n _ IH]. intros s ->.
  apply Hstep. intros stem rest Hex.
  apply (IH (String.length rest)); [|done].
  by apply extract_Some in Hex as [_ ?].
Qed.

Lemma skip_ws_app s t :
  skip_ws (s +:+ t)
    = match skip_ws s with
      | EmptyString => skip_ws t
      | String d u => String d u +:+ t
      end.
Proof.
  induction s as [|d s IH]; [done|].
  rewrite string_app_cons. simpl. by destruct (isspace d).
Qed.

Lemma skip_ws_head s d u : skip_ws s = String d u → isspace d = false.
Proof.
  induction s as [|e s IH]; simpl; [done|].
  destruct (isspace e) eqn:He; [done|]. by intros [= <- <-].
Qed.

Lemma read_word_app_space s c t :
  isspace c = true →
  read_word (s +:+ String c t)
    = ((read_word s).1, (read_word s).2 +:+ String c t).
Proof.
  intros Hc. induction s as [|d s IH].
  - rewrite string_app_nil_l. simpl. by rewrite Hc.
  - rewrite string_app_cons. simpl. destruct (isspace d); [done|].
    rewrite IH. by destruct (read_word s).
Qed.

Lemma extract_space c s : isspace c = true → extract (String c s) = extract s.
Proof. intros Hc. unfold extract. simpl. by rewrite Hc. Qed.

Lemma extract_app_space s1 c s2 :
  isspace c = true →
  extract (s1 +:+ String c s2)
    = match extract s1 with
      | Some (stem, rest) => Some (stem, rest +:+ String c s2)
      | None => extract s2
      end.
Proof.
  intros Hc. unfold extract at 1 2. rewrite skip_ws_app.
  destruct (skip_ws s1) as [|d u] eqn:Hs.
  - simpl. rewrite Hc. done.
  - rewrite read_word_app_space by done.
    pose proof (skip_ws_head _ _ _ Hs) as Hd. simpl. rewrite Hd.
    by destruct (read_word u).
Qed.

Lemma read_tokens_app_space s1 c s2 :
  isspace c = true →
  read_tokens (s1 +:+ String c s2) = read_tokens s1 ++ read_tokens s2.
Proof.
  intros Hc. induction s1 as [s1 IH] using read_tokens_ind.
  rewrite (read_tokens_step (s1 +:+ _)), (read_tokens_step s1).
  rewrite extract_app_space by done.
  destruct (extract s1) as [[stem rest]|] eqn:Hex.
  - simpl. f_equal. by eapply IH.
  - simpl. by rewrite <-read_tokens_step.
Qed.

Lemma read_word_no_space w :
  no_space w = true → read_word w = (w, EmptyString).
Proof.
  induction w as [|c w IH]; simpl; [done|].
  destruct (isspace c); [done|]. simpl. intros Hw. by rewrite IH.
Qed.

Lemma read_tokens_word w : is_word w → read_tokens w = [w].
Proof.
  intros [Hne Hw]. rewrite read_tokens_step. unfold extract.
  destruct w as [|c w]; [done|]. simpl in Hw.
  destruct (isspace c) eqn:Hc; [done|]. simpl in Hw.
  simpl skip_ws. rewrite Hc. simpl read_word. rewrite Hc.
  rewrite (read_word_no_space w Hw). by rewrite read_tokens_step.
Qed.

Lemma read_tokens_Forall_word stream : Forall is_word (read_tokens stream).
Proof.
  induction stream as [stream IH] using read_tokens_ind.
  rewrite read_tokens_step.
  destruct (extract stream) as [[stem rest]|] eqn:Hex; [|constructor].
  constructor; [by apply extract_Some in Hex as [? _]|by eapply IH].
Qed.

(** X2. Every word that the input loop receives is not empty and holds no
    whitespace, and the words together are no longer than the text. *)
Theorem read_tokens_are_words (stream : string) :
  Forall is_word (read_tokens stream) ∧
  (length (read_tokens stream) ≤ String.length stream)%nat.
Proof.
  split; [apply read_tokens_Forall_word|].
  induction stream as [stream IH] using read_tokens_ind.
  rewrite read_tokens_step.
  destruct (extract stream) as [[stem rest]|] eqn:Hex; simpl; [|lia].
  specialize (IH _ _ eq_refl). apply extract_Some in Hex as [_ Hlt]. lia.
Qed.

(** X3. Whitespace only separates: the words of two texts put together with
    a whitespace character between them are the words of the first followed
    by the words of the second, and whitespace in front of a text changes
    nothing. *)
Theorem read_tokens_separator (c : ascii) (s1 s2 : string) :
  isspace c = true →
  read_tokens (s1 +:+ String c s2) = read_tokens s1 ++ read_tokens s2 ∧
  read_tokens (String c s2) = read_tokens s2.
Proof.
  intros Hc. split; [by apply read_tokens_app_space|].
  by rewrite (read_tokens_step (String c s2)), extract_space,
    <-read_tokens_step.
Qed.

Lemma read_tokens_separator_witness :
  read_tokens ("to be" +:+ String "010" "or not")
    = read_tokens "to be" ++ read_tokens "or not" ∧
  read_tokens (String "010" "or not") = read_tokens "or not".
Proof. apply (read_tokens_separator "010" "to be" "or not"). reflexivity. Defined.

(** X4. Reading back: a text made of words, each followed by one whitespace
    character, is read as exactly those words, in order. *)
Theorem read_tokens_join_words (c : ascii) (words : list string) :
  isspace c = true → Forall is_word words →
  read_tokens (join_words c words) = words.
Proof.
  intros Hc. induction 1 as [|w words Hw _ IH]; simpl.
  - by rewrite read_tokens_step.
  - by rewrite read_tokens_app_space, read_tokens_word, IH.
Qed.

Lemma read_tokens_join_words_witness :
  read_tokens (join_words " " ["stem"; "word"; "stem"]) = ["stem"; "word"; "stem"].
Proof.
  apply (read_tokens_join_words " " ["stem"; "word"; "stem"]); [reflexivity|].
  repeat constructor; done.
Defined.

(** ** The counting pass: what the table and the positions hold *)

Lemma occurrences_snoc w tokens x :
  occurrences w (tokens ++ [x])
    = (occurrences w tokens + (if decide (x = w) then 1 else 0))%nat.
Proof.
  unfold occurrences. rewrite filter_app, length_app. f_equal.
  rewrite filter_cons, filter_nil. by case_decide.
Qed.

Lemma occurrences_zero w tokens : occurrences w tokens = 0%nat ↔ w ∉ tokens.
Proof.
  unfold occurrences. split.
  - intros Hz Hin. apply length_zero_iff_nil in Hz.
    by apply (filter_nil_not_elem_of _ _ w Hz).
  - intros Hnot. apply length_zero_iff_nil.
    destruct (filter _ tokens) as [|y l] eqn:Hf; [done|].
    assert (Hy : y ∈ filter (λ x, x = w) tokens) by (rewrite Hf; left).
    apply list_elem_of_filter in Hy as [-> Hin]. done.
Qed.

Lemma occurrences_le w tokens : (occurrences w tokens ≤ length tokens)%nat.
Proof. apply length_filter. Qed.

(** The entry of a word, whatever the length of the input. *)
Lemma counting_lookup_wrap tokens w :
  stemHash (counting tokens) !! w
    = if decide (occurrences w tokens = 0%nat) then None
      else Some (wrap_int (Z.of_nat (occurrences w tokens))).
Proof.
  induction tokens as [|x tokens IH] using rev_ind; [done|].
  rewrite counting_snoc, occurrences_snoc. simpl.
  destruct (decide (x = w)) as [->|Hne].
  - rewrite lookup_insert_eq, IH.
    rewrite (decide_False (P:=(occurrences w tokens + 1)%nat = 0%nat)) by lia.
    f_equal. case_decide as Hocc; simpl.
    + rewrite Hocc. done.
    + rewrite wrap_int_add_l. f_equal. lia.
  - rewrite lookup_insert_ne, IH by done.
    by replace (occurrences w tokens + 0)%nat with (occurrences w tokens) by lia.
Qed.

(** X5. After the counting pass over at most [INT_MAX] words, the table
    holds for each word of the input the number of times it occurs, and no
    entry for any other word. *)
Theorem table_counts_occurrences (tokens : list string) (w : string) :
  Z.of_nat (length tokens) ≤ INT_MAX →
  stemHash (counting tokens) !! w
    = if decide (w ∈ tokens) then Some (Z.of_nat (occurrences w tokens))
      else None.
Proof.
  intros Hlen. rewrite counting_lookup_wrap.
  pose proof (occurrences_le w tokens) as Hle.
  pose proof (occurrences_zero w tokens) as Hz.
  destruct (decide (w ∈ tokens)) as [Hin|Hnot].
  - rewrite decide_False by (intros H0; by apply Hz in H0).
    f_equal. apply wrap_int_id. unfold INT_MAX in *. lia.
  - rewrite decide_True by by apply Hz. done.
Qed.

Lemma table_counts_occurrences_witness :
  stemHash (counting ["to"; "be"; "or"; "not"; "to"; "be"]) !! "be"
    = if decide ("be" ∈ ["to"; "be"; "or"; "not"; "to"; "be"])
      then Some (Z.of_nat (occurrences "be" ["to"; "be"; "or"; "not"; "to"; "be"]))
      else None.
Proof.
  apply (table_counts_occurrences ["to"; "be"; "or"; "not"; "to"; "be"] "be").
  by vm_compute.
Defined.

Lemma counting_lookup_None tokens w :
  stemHash (counting tokens) !! w = None ↔ w ∉ tokens.
Proof.
  rewrite <-not_elem_of_dom, counting_dom. by rewrite elem_of_list_to_set.
Qed.

(** X6. After the counting pass over at most [INT_MAX] words, the position
    [k + 1] of a word is among the recorded first-seen positions exactly
    when the word does not occur among the [k] words before it. *)
Theorem position_recorded_iff_new (tokens : list string) (k : nat) (w : string) :
  Z.of_nat (length tokens) ≤ INT_MAX →
  tokens !! k = Some w →
  Z.of_nat k + 1 ∈ uniqueWordCount (counting tokens) ↔ w ∉ take k tokens.
Proof.
  revert k w. induction tokens as [|x tokens IH] using rev_ind;
    intros k w Hlen Hk; [done|].
  rewrite length_app in Hlen. simpl in Hlen.
  assert (Hlen' : Z.of_nat (length tokens) ≤ INT_MAX) by lia.
  destruct (counting_counted tokens Hlen') as [Htot _ _ _ _ Hrange _].
  assert (Hw : wrap_int (totalWordCount (counting tokens) + 1)
               = Z.of_nat (length tokens) + 1).
  { rewrite Htot. apply wrap_int_id. unfold INT_MAX in *. lia. }
  rewrite counting_snoc. simpl. rewrite Hw.
  apply lookup_snoc_Some in Hk as [[Hlt Hk]|[-> ->]].
  - (* an earlier word *)
    rewrite take_app_le by lia. rewrite <-(IH k w Hlen' Hk).
    case_decide; [|done]. rewrite elem_of_app, list_elem_of_singleton.
    split; [intros [?|?]; [done|lia]|by left].
  - (* the last word *)
    rewrite take_app_length.
    rewrite Forall_forall in Hrange.
    case_decide as Hnew.
    + apply counting_lookup_None in Hnew.
      rewrite elem_of_app, list_elem_of_singleton. split; [done|by right].
    + rewrite counting_lookup_None in Hnew. split; [|done].
      intros Hin. specialize (Hrange _ Hin). simpl in Hrange. lia.
Qed.

Lemma position_recorded_iff_new_witness :
  Z.of_nat 2 + 1 ∈ uniqueWordCount (counting ["a"; "a"; "b"])
    ↔ "b" ∉ take 2 ["a"; "a"; "b"].
Proof.
  apply (position_recorded_iff_new ["a"; "a"; "b"] 2 "b"); by vm_compute.
Defined.

(** ** The rows of the report *)

Lemma ranked_rows_pairs i l twc :
  0 ≤ i → row_pair <$> ranked_rows i l twc = take (Z.to_nat (50 - i)) l.
Proof.
  revert i. induction l as [|[stem freq] l IH]; intros i Hi; simpl.
  - by rewrite take_nil.
  - destruct (Z.ltb_spec i 50) as [Hlt|Hge]; simpl.
    + rewrite IH by lia.
      replace (Z.to_nat (50 - i)) with (S (Z.to_nat (50 - (i + 1)))) by lia.
      done.
    + by replace (Z.to_nat (50 - i)) with 0%nat by lia.
Qed.

Lemma counting_unique_le tokens :
  (length (uniqueWordCount (counting tokens)) ≤ length tokens)%nat.
Proof.
  induction tokens as [|x tokens IH] using rev_ind; [done|].
  rewrite counting_snoc, length_app. simpl.
  case_decide; rewrite ?length_app; simpl; lia.
Qed.

Lemma unique_rows_step i size u rest :
  0 ≤ i → i + Z.of_nat (length (u :: rest)) = size → size ≤ INT_MAX →
  unique_rows i size (u :: rest) = (u, i + 1) :: unique_rows (i + 1) size rest.
Proof.
  intros Hi Hsize Hmax. simpl in *.
  assert (Hw : wrap_int (i + 1) = i + 1).
  { apply wrap_int_id. unfold INT_MAX in *. lia. }
  assert (Ht : (wrap_size_t i <? size) = true).
  { apply Z.ltb_lt. unfold wrap_size_t, INT_MAX in *.
    rewrite Z.mod_small by lia. lia. }
  by rewrite Ht, Hw.
Qed.

Lemma unique_rows_lookup i size l k :
  0 ≤ i → i + Z.of_nat (length l) = size → size ≤ INT_MAX →
  unique_rows i size l !! k = (λ u, (u, i + Z.of_nat k + 1)) <$> l !! k.
Proof.
  revert i k. induction l as [|u l IH]; intros i k Hi Hsize Hmax; [done|].
  rewrite unique_rows_step by done. simpl in Hsize.
  destruct k as [|k]; simpl.
  - do 2 f_equal. lia.
  - rewrite IH by lia. destruct (l !! k); simpl; [|done]. do 2 f_equal. lia.
Qed.

Section Rows.

Variable iter : gmap string Z → list (string * Z).
Hypothesis iter_perm : ∀ m, iter m ≡ₚ map_to_list m.

Lemma ranked_section_pairs st :
  row_pair <$> ranked_section iter st = take 50 (stemFreq iter st).
Proof. unfold ranked_section. by rewrite ranked_rows_pairs. Qed.

Lemma stemFreq_perm st : stemFreq iter st ≡ₚ map_to_list (stemHash st).
Proof. unfold stemFreq. by rewrite std_sort_perm, iter_perm. Qed.

Lemma ranked_section_stems st :
  row_stem <$> ranked_section iter st = (take 50 (stemFreq iter st)).*1.
Proof. by rewrite <-ranked_section_pairs, <-list_fmap_compose. Qed.

(** X7. For an input of at most [INT_MAX] words, every row of the ranked
    section shows a word of the input with the number of times it occurs
    there, and no word has two rows. *)
Theorem ranked_rows_are_word_counts (tokens : list string) :
  Z.of_nat (length tokens) ≤ INT_MAX →
  NoDup (row_stem <$> ranked_section iter (counting tokens)) ∧
  ∀ r, r ∈ ranked_section iter (counting tokens) →
    row_stem r ∈ tokens ∧
    row_frequency r = Z.of_nat (occurrences (row_stem r) tokens).
Proof.
  intros Hlen. split.
  - rewrite ranked_section_stems, fmap_take.
    eapply sublist_NoDup; [|apply sublist_take].
    rewrite stemFreq_perm. apply NoDup_fst_map_to_list.
  - intros r Hr.
    assert (Hp : row_pair r ∈ stemFreq iter (counting tokens)).
    { apply (list_elem_of_fmap_2 row_pair) in Hr.
      rewrite ranked_section_pairs in Hr.
      eapply elem_of_sublist; [exact Hr|apply sublist_take]. }
    rewrite stemFreq_perm in Hp. apply elem_of_map_to_list in Hp.
    rewrite counting_lookup_wrap in Hp. simpl in Hp.
    case_decide as Hocc; [done|]. injection Hp as Hp.
    pose proof (occurrences_le (row_stem r) tokens) as Hle.
    split.
    + destruct (decide (row_stem r ∈ tokens)) as [|Hnot]; [done|].
      by apply occurrences_zero in Hnot.
    + rewrite <-Hp. apply wrap_int_id. unfold INT_MAX in *. lia.
Qed.

(** X8. The ranked section keeps the most frequent words: a word of the
    table that has no row has a count no larger than that of any row. *)
Theorem omitted_words_are_not_more_frequent (st : counter) (r : ranked_row)
    (w : string) (f : Z) :
  r ∈ ranked_section iter st →
  stemHash st !! w = Some f →
  w ∉ row_stem <$> ranked_section iter st →
  f ≤ row_frequency r.
Proof.
  intros Hr Hw Hnot.
  pose proof (std_sort_sorted (iter (stemHash st))) as Hsorted.
  fold (stemFreq iter st) in Hsorted.
  rewrite <-(take_drop 50 (stemFreq iter st)) in Hsorted.
  apply (StronglySorted_app_1_elem_of _ _ _ (row_pair r) (w, f) Hsorted).
  - rewrite <-ranked_section_pairs. by apply list_elem_of_fmap_2.
  - apply elem_of_map_to_list in Hw. rewrite <-stemFreq_perm in Hw.
    rewrite <-(take_drop 50 (stemFreq iter st)) in Hw.
    apply elem_of_app in Hw as [Hw|Hw]; [|done].
    exfalso. apply Hnot. rewrite ranked_section_stems.
    by apply (list_elem_of_fmap_2 fst) in Hw.
Qed.

(** X9. When the input has at most 50 distinct words, every one of them has
    a row in the ranked section. *)
Theorem few_words_all_ranked (tokens : list string) (w : string) :
  (distinct tokens ≤ 50)%nat → w ∈ tokens →
  w ∈ row_stem <$> ranked_section iter (counting tokens).
Proof.
  intros Hfew Hw. rewrite ranked_section_stems, take_ge.
  - destruct (stemHash (counting tokens) !! w) as [f|] eqn:Hlook.
    + apply elem_of_map_to_list in Hlook. rewrite <-stemFreq_perm in Hlook.
      by apply (list_elem_of_fmap_2 fst) in Hlook.
    + by apply counting_lookup_None in Hlook.
  - rewrite stemFreq_perm, length_map_to_list, counting_size. done.
Qed.

End Rows.

Lemma ranked_rows_are_word_counts_witness :
  NoDup (row_stem <$> ranked_section map_to_list (counting ["a"; "b"; "a"])) ∧
  ∀ r, r ∈ ranked_section map_to_list (counting ["a"; "b"; "a"]) →
    row_stem r ∈ ["a"; "b"; "a"] ∧
    row_frequency r = Z.of_nat (occurrences (row_stem r) ["a"; "b"; "a"]).
Proof.
  apply (ranked_rows_are_word_counts map_to_list
           (λ m, reflexivity (map_to_list m)) ["a"; "b"; "a"]).
  by vm_compute.
Defined.

Lemma omitted_words_are_not_more_frequent_witness :
  1 ≤ row_frequency
        (RankedRow "top" 2 1 (float_div (float_of_int 2) (float_of_int 53))).
Proof.
  apply (omitted_words_are_not_more_frequent map_to_list
           (λ m, reflexivity (map_to_list m)) (counting fifty_two_words)
           _ "w8" 1).
  - vm_compute. left.
  - by vm_compute.
  - apply (bool_decide_unpack _). by vm_compute.
Defined.

Lemma few_words_all_ranked_witness :
  "b" ∈ row_stem <$> ranked_section map_to_list (counting ["a"; "b"; "a"]).
Proof.
  apply (few_words_all_ranked map_to_list (λ m, reflexivity (map_to_list m))
           ["a"; "b"; "a"] "b").
  - vm_compute. lia.
  - apply (bool_decide_unpack _). by vm_compute.
Defined.

(** X10. For an input of at most [INT_MAX] words, the row at 0-based
    position [i] of the second table pairs the [i]-th recorded position with
    the ordinal [i + 1], and the table has one row for each distinct word. *)
Theorem unique_section_rows (tokens : list string) (i : nat) :
  Z.of_nat (length tokens) ≤ INT_MAX →
  unique_section (counting tokens) !! i
    = (λ u, (u, Z.of_nat i + 1)) <$> uniqueWordCount (counting tokens) !! i ∧
  length (unique_section (counting tokens)) = distinct tokens.
Proof.
  intros Hlen. pose proof (counting_unique_le tokens) as Hle.
  assert (Hrows : ∀ k, unique_section (counting tokens) !! k
            = (λ u, (u, Z.of_nat k + 1)) <$> uniqueWordCount (counting tokens) !! k).
  { intros k. unfold unique_section. rewrite unique_rows_lookup by lia.
    destruct (_ !! k); simpl; [|done]. do 2 f_equal. }
  split; [done|].
  rewrite <-counting_size, <-counting_unique_length.
  apply Nat.le_antisymm.
  - destruct (decide (length (unique_section (counting tokens))
                      ≤ length (uniqueWordCount (counting tokens)))%nat) as [|Hgt];
      [done|].
    destruct (lookup_lt_is_Some_2 (unique_section (counting tokens))
                (length (uniqueWordCount (counting tokens)))) as [x Hx]; [lia|].
    rewrite Hrows, (lookup_ge_None_2 (uniqueWordCount _)) in Hx by lia. done.
  - destruct (decide (length (uniqueWordCount (counting tokens))
                      ≤ length (unique_section (counting tokens)))%nat) as [|Hgt];
      [done|].
    destruct (lookup_lt_is_Some_2 (uniqueWordCount (counting tokens))
                (length (unique_section (counting tokens)))) as [x Hx]; [lia|].
    specialize (Hrows (length (unique_section (counting tokens)))).
    rewrite Hx, lookup_ge_None_2 in Hrows by lia. done.
Qed.

Lemma unique_section_rows_witness :
  unique_section (counting ["a"; "a"; "b"]) !! 1%nat
    = (λ u, (u, Z.of_nat 1 + 1)) <$> uniqueWordCount (counting ["a"; "a"; "b"]) !! 1%nat ∧
  length (unique_section (counting ["a"; "a"; "b"])) = distinct ["a"; "a"; "b"].
Proof. apply (unique_section_rows ["a"; "a"; "b"] 1). by vm_compute. Defined.

(** ** Files *)

Lemma fileOutput_short_witness : fileOutput "ab" = "ab" +:+ "_Output.csv".
Proof. apply (fileOutput_short "ab"). vm_compute. lia. Defined.

Lemma take_chars_length n s :
  String.length (take_chars n s) = Nat.min n (String.length s).
Proof.
  revert s. induction n as [|n IH]; intros [|c s]; simpl; try done.
  by rewrite IH.
Qed.

Lemma fileOutput_length fileName :
  String.length (fileOutput fileName) ≠ String.length fileName.
Proof.
  unfold fileOutput, substr0, wrap_size_t.
  rewrite string_length_app, take_chars_length. simpl.
  pose proof (Z.div_mod (Z.of_nat (String.length fileName) - 4) (2 ^ 64)) as Hdiv.
  pose proof (Z.mod_pos_bound (Z.of_nat (String.length fileName) - 4) (2 ^ 64)) as Hmod.
  lia.
Qed.

Lemma fileOutput_neq fileName : fileOutput fileName ≠ fileName.
Proof. intros Heq. apply (fileOutput_length fileName). by rewrite Heq. Qed.

Lemma fileOutput_strip base ext :
  String.length ext = 4%nat →
  Z.of_nat (String.length (base +:+ ext)) < 2 ^ 64 →
  fileOutput (base +:+ ext) = base +:+ "_Output.csv".
Proof.
  intros Hext Hsize. unfold fileOutput, substr0, wrap_size_t.
  rewrite string_length_app in *. rewrite Hext in *.
  rewrite Z.mod_small by lia.
  replace (Z.to_nat _) with (String.length base) by lia.
  by rewrite take_chars_app.
Qed.

Section Files.

Variable iter : gmap string Z → list (string * Z).
Hypothesis iter_perm : ∀ m, iter m ≡ₚ map_to_list m.
Variable show_float : spec_float → string.

(** X12. The report never goes to the file it was read from: the output
    name differs from the input name, whatever the name, and a run leaves
    its input file as it was. *)
Theorem input_file_is_kept (fileName : string) (fs : gmap string string) :
  fileOutput fileName ≠ fileName ∧
  freqSorter iter show_float fileName fs !! fileName = fs !! fileName.
Proof.
  split; [apply fileOutput_neq|].
  unfold freqSorter. rewrite lookup_insert_ne; [done|apply fileOutput_neq].
Qed.

(** X13. Running the analysis of a file a second time changes nothing. *)
Theorem freqSorter_twice (fileName : string) (fs : gmap string string) :
  freqSorter iter show_float fileName (freqSorter iter show_float fileName fs)
    = freqSorter iter show_float fileName fs.
Proof.
  unfold freqSorter at 1. unfold file_tokens.
  assert (Hin : freqSorter iter show_float fileName fs !! fileName = fs !! fileName).
  { unfold freqSorter. rewrite lookup_insert_ne; [done|apply fileOutput_neq]. }
  rewrite Hin. unfold freqSorter, file_tokens. by rewrite insert_insert_eq.
Qed.

(** X14. A file that cannot be opened is analysed like an empty one: no
    word is read, the counters keep their initial values, and the text that
    goes to the report stream is that of the two header rows, with no data
    row. *)
Theorem missing_file_report (fileName : string) (fs : gmap string string) :
  fs !! fileName = None →
  file_tokens fileName fs = [] ∧
  counting (file_tokens fileName fs) = count_start ∧
  report_text iter show_float (counting (file_tokens fileName fs))
    = header_ranked +:+ header_unique.
Proof.
  intros Hnone.
  assert (Htokens : file_tokens fileName fs = []).
  { unfold file_tokens. rewrite Hnone. simpl.
    apply (read_tokens_all_space EmptyString eq_refl). }
  rewrite Htokens. change (counting []) with count_start.
  split; [done|]. split; [done|].
  unfold report_text. by rewrite (ranked_section_start iter iter_perm).
Qed.

Lemma foldl_freqSorter_dom args fs :
  dom (foldl (λ fs arg, freqSorter iter show_float arg fs) fs args)
    = dom fs ∪ list_to_set (fileOutput <$> args).
Proof.
  revert fs. induction args as [|arg args IH]; intros fs.
  - change (list_to_set (fileOutput <$> [])) with (∅ : gset string).
    by rewrite (right_id_L ∅ (∪)).
  - rewrite fmap_cons, list_to_set_cons.
    change (foldl ?f fs (arg :: args)) with (foldl f (f fs arg) args).
    rewrite IH. unfold freqSorter.
    rewrite dom_insert_L, (comm_L (∪) {[fileOutput arg]} (dom fs)).
    by rewrite <-(assoc_L (∪)).
Qed.

Lemma foldl_freqSorter_other args fs path :
  path ∉ fileOutput <$> args →
  foldl (λ fs arg, freqSorter iter show_float arg fs) fs args !! path
    = fs !! path.
Proof.
  revert fs. induction args as [|arg args IH]; intros fs Hpath; simpl; [done|].
  rewrite fmap_cons, not_elem_of_cons in Hpath. destruct Hpath as [Hne Hpath].
  rewrite IH by done. unfold freqSorter. by rewrite lookup_insert_ne.
Qed.

(** X15. A run of the program touches no file but the reports of its
    arguments: every path that is not the report name of an argument holds
    after the run what it held before (or is still absent), no file is
    removed, and without arguments nothing changes. *)
Theorem main_writes_only_reports (argv : list string) (fs : gmap string string) :
  (∀ path, path ∉ fileOutput <$> drop 1 argv →
     (main iter show_float argv fs).1 !! path = fs !! path) ∧
  dom fs ⊆ dom (main iter show_float argv fs).1 ∧
  ((length argv ≤ 1)%nat → (main iter show_float argv fs).1 = fs).
Proof.
  unfold main. simpl. rewrite main_loop_drop by lia. split; [|split].
  - intros path. apply foldl_freqSorter_other.
  - rewrite foldl_freqSorter_dom. apply union_subseteq_l.
  - intros Hlen. by rewrite drop_ge by lia.
Qed.

(** X16. Two input names that differ only in their last 4 characters share
    their report file; when both are given, the report that remains is that
    of the second. *)
Theorem same_base_reports_collide (prog base ext1 ext2 : string)
    (fs : gmap string string) :
  String.length ext1 = 4%nat → String.length ext2 = 4%nat →
  Z.of_nat (String.length base) + 4 < 2 ^ 64 →
  fileOutput (base +:+ ext1) = fileOutput (base +:+ ext2) ∧
  (main iter show_float [prog; base +:+ ext1; base +:+ ext2] fs).1
      !! fileOutput (base +:+ ext1)
    = Some (report_text iter show_float
              (counting (file_tokens (base +:+ ext2) fs))).
Proof.
  intros H1 H2 Hsize.
  assert (Hout1 : fileOutput (base +:+ ext1) = base +:+ "_Output.csv").
  { apply fileOutput_strip; [done|]. rewrite string_length_app. lia. }
  assert (Hout2 : fileOutput (base +:+ ext2) = base +:+ "_Output.csv").
  { apply fileOutput_strip; [done|]. rewrite string_length_app. lia. }
  split; [congruence|].
  unfold main. simpl. unfold freqSorter at 1.
  rewrite Hout1, Hout2, lookup_insert_eq. do 2 f_equal.
  unfold file_tokens, freqSorter. rewrite lookup_insert_ne; [done|].
  rewrite Hout1. intros Heq. apply (f_equal String.length) in Heq.
  rewrite !string_length_app, H2 in Heq. simpl in Heq. lia.
Qed.

End Files.

Lemma missing_file_report_witness :
  file_tokens "none.txt" ∅ = [] ∧
  counting (file_tokens "none.txt" ∅) = count_start ∧
  report_text map_to_list (λ _, EmptyString) (counting (file_tokens "none.txt" ∅))
    = header_ranked +:+ header_unique.
Proof.
  apply (missing_file_report map_to_list (λ m, reflexivity (map_to_list m))
           (λ _, EmptyString) "none.txt" ∅).
  reflexivity.
Defined.

Lemma same_base_reports_collide_witness :
  fileOutput ("a" +:+ ".txt") = fileOutput ("a" +:+ ".dat") ∧
  (main map_to_list (λ _, EmptyString) ["prog"; "a" +:+ ".txt"; "a" +:+ ".dat"]
     {["a.txt" := "x"; "a.dat" := "y y"]}).1 !! fileOutput ("a" +:+ ".txt")
    = Some (report_text map_to_list (λ _, EmptyString)
              (counting (file_tokens ("a" +:+ ".dat")
                           {["a.txt" := "x"; "a.dat" := "y y"]}))).
Proof.
  apply (same_base_reports_collide map_to_list (λ _, EmptyString)
           "prog" "a" ".txt" ".dat"); by vm_compute.
Defined.

(** ** The conversion of [totalWordCount] and of the counts to [float] *)

(** X17. The [float] of an [int] is a zero exactly when the [int] is 0, so
    the divisor [twc] of the probabilities is a zero only for a
    [totalWordCount] of 0. *)
Theorem float_of_int_zero_iff (z : Z) :
  float_is_zero (float_of_int z) = true ↔ z = 0.
Proof.
  split.
  - intros Hz. destruct (decide (z = 0)) as [|Hne]; [done|].
    apply float_of_int_nonzero in Hne. congruence.
  - by intros ->.
Qed.

Lemma digits2_pos_iter_xO p k :
  digits2_pos (Pos.iter xO p k) = (digits2_pos p + k)%positive.
Proof.
  induction k as [|k IH] using Pos.peano_ind.
  - simpl. lia.
  - rewrite Pos.iter_succ. simpl. rewrite IH. lia.
Qed.

Lemma Zpos_iter_xO p k : Z.pos (Pos.iter xO p k) = Z.pos p * 2 ^ Z.pos k.
Proof.
  induction k as [|k IH] using Pos.peano_ind.
  - simpl. lia.
  - rewrite Pos.iter_succ, Pos2Z.inj_xO, IH, Pos2Z.inj_succ, Z.pow_succ_r by lia.
    lia.
Qed.

Lemma binary_round_aux_exact sx m e :
  digits2_pos m = 24%positive → - 149 ≤ e ≤ 104 →
  binary_round_aux 24 128 sx (Z.pos m) e loc_Exact = S754_finite sx m e.
Proof.
  intros Hd He.
  assert (Hshift : shr_fexp 24 128 (Z.pos m) e loc_Exact
                   = (Build_shr_record (Z.pos m) false false, e)).
  { unfold shr_fexp, fexp, emin. simpl Zdigits2. rewrite Hd.
    replace (Z.max (24 + e - 24) (3 - 128 - 24) - e) with 0 by lia.
    reflexivity. }
  assert (Hle : (e <=? 128 - 24) = true) by (apply Z.leb_le; lia).
  unfold binary_round_aux. rewrite Hshift. simpl. rewrite Hshift. simpl.
  by rewrite Hle.
Qed.

Lemma float_of_int_small p :
  Z.pos p < 2 ^ 24 →
  ∃ m e, float_of_int (Z.pos p) = S754_finite false m e ∧
         e ≤ 0 ∧ Z.pos m = Z.pos p * 2 ^ (- e).
Proof.
  intros Hz. pose proof (digits2_pos_lower p) as Hlow.
  assert (Hd : Z.pos (digits2_pos p) ≤ 24).
  { destruct (decide (Z.pos (digits2_pos p) ≤ 24)) as [|Hgt]; [done|].
    assert (2 ^ 24 ≤ 2 ^ (Z.pos (digits2_pos p) - 1))
      by (apply Z.pow_le_mono_r; lia). lia. }
  unfold float_of_int, binary_normalize, binary_round, shl_align, fexp, emin.
  replace (Z.max (Z.pos (digits2_pos p) + 0 - 24) (3 - 128 - 24))
    with (Z.pos (digits2_pos p) - 24) by lia.
  destruct (Z.pos (digits2_pos p) - 24 - 0) as [|k|k] eqn:Hk; [|lia|].
  - exists p, 0. rewrite binary_round_aux_exact by lia. split; [done|]. lia.
  - exists (Pos.iter xO p k), (Z.pos (digits2_pos p) - 24).
    rewrite binary_round_aux_exact.
    + split; [done|]. split; [lia|]. rewrite Zpos_iter_xO. do 2 f_equal. lia.
    + rewrite digits2_pos_iter_xO. lia.
    + lia.
Qed.

(** X18. Counts below 2^24 are converted to [float] without rounding: the
    [float] of such a count [z] is a finite number [m * 2^e] with
    [m = z * 2^(-e)]. *)
Theorem float_of_int_exact (z : Z) :
  0 < z < 2 ^ 24 →
  ∃ m e, float_of_int z = S754_finite false m e ∧
         e ≤ 0 ∧ Z.pos m = z * 2 ^ (- e).
Proof.
  intros Hz. destruct z as [|p|p]; [lia| |lia]. apply float_of_int_small. lia.
Qed.

Lemma float_of_int_exact_witness :
  ∃ m e, float_of_int 3 = S754_finite false m e ∧
         e ≤ 0 ∧ Z.pos m = 3 * 2 ^ (- e).
Proof. apply (float_of_int_exact 3). by vm_compute. Defined.

(** ** The lines of the report *)

Lemma newlines_app s t : newlines (s +:+ t) = (newlines s + newlines t)%nat.
Proof.
  induction s as [|c s IH]; [done|].
  rewrite string_app_cons. simpl. rewrite IH. lia.
Qed.

Lemma newlines_no_space w : no_space w = true → newlines w = 0%nat.
Proof.
  induction w as [|c w IH]; simpl; [done|].
  destruct (isspace c) eqn:Hc; [done|]. simpl. intros Hw. rewrite (IH Hw).
  destruct (Ascii.eqb_spec c "010") as [->|]; [done|lia].
Qed.

Lemma newlines_pretty_N_go x s : newlines (pretty_N_go x s) = newlines s.
Proof.
  revert s. induction (N.lt_wf_0 x) as [x _ IH]; intros s.
  assert (x = 0 ∨ 0 < x)%N as [->|Hx] by lia.
  - by rewrite pretty_N_go_0.
  - rewrite pretty_N_go_step by done. rewrite IH by by apply N.div_lt.
    simpl. unfold pretty_N_char. by repeat case_match.
Qed.

Lemma newlines_pretty_Z (z : Z) : newlines (pretty z) = 0%nat.
Proof.
  assert (Hpos : ∀ x : positive, newlines (pretty x) = 0%nat).
  { intros x. unfold pretty, pretty_positive, pretty, pretty_N.
    case_decide; [done|]. by rewrite newlines_pretty_N_go. }
  destruct z as [|x|x]; [done|apply Hpos|].
  unfold pretty, pretty_Z. rewrite newlines_app. simpl. by rewrite Hpos.
Qed.

Lemma newlines_concat_lines {A} (f : A → string) (l : list A) :
  (∀ x, x ∈ l → newlines (f x) = 1%nat) →
  newlines (concat_lines (f <$> l)) = length l.
Proof.
  induction l as [|x l IH]; intros Hone; [done|].
  rewrite fmap_cons.
  change (concat_lines (f x :: (f <$> l))) with (f x +:+ concat_lines (f <$> l)).
  rewrite newlines_app, Hone by left.
  rewrite IH; [done|]. intros y Hy. apply Hone. by right.
Qed.

Lemma unique_rows_length i size l :
  0 ≤ i → i + Z.of_nat (length l) = size → size ≤ INT_MAX →
  length (unique_rows i size l) = length l.
Proof.
  revert i. induction l as [|u l IH]; intros i Hi Hsize Hmax; [done|].
  rewrite unique_rows_step by done. simpl in *. rewrite IH; [done|lia..].
Qed.

Lemma newlines_unique_line r : newlines (unique_line r) = 1%nat.
Proof.
  unfold unique_line. rewrite !newlines_app, !newlines_pretty_Z. done.
Qed.

Section Lines.

Variable iter : gmap string Z → list (string * Z).
Hypothesis iter_perm : ∀ m, iter m ≡ₚ map_to_list m.
Variable show_float : spec_float → string.

(** The stream writes a [float] on one line. *)
Hypothesis show_float_line : ∀ x, newlines (show_float x) = 0%nat.

Lemma newlines_ranked_line r :
  no_space (row_stem r) = true → newlines (ranked_line show_float r) = 1%nat.
Proof.
  intros Hstem. unfold ranked_line.
  rewrite !newlines_app, !newlines_pretty_Z, show_float_line.
  by rewrite (newlines_no_space _ Hstem).
Qed.

(** X19. For a file of at most [INT_MAX] words, the text of the report has
    one line for each of its two headers, the blank line between the
    tables, one line for each of the min(50, d) rows of the ranked section
    and one for each of the d first-seen positions, d being the number of
    distinct words of the file. *)
Theorem report_line_count (contents : string) :
  Z.of_nat (length (read_tokens contents)) ≤ INT_MAX →
  newlines (report_text iter show_float (counting (read_tokens contents)))
    = (3 + Nat.min 50 (distinct (read_tokens contents))
         + distinct (read_tokens contents))%nat.
Proof.
  intros Hlen. set (tokens := read_tokens contents) in *.
  assert (Hwords : Forall is_word tokens) by apply read_tokens_Forall_word.
  pose proof (counting_unique_le tokens) as Hle.
  unfold report_text. rewrite !newlines_app.
  rewrite (newlines_concat_lines unique_line) by (intros; apply newlines_unique_line).
  rewrite newlines_concat_lines.
  - rewrite (ranked_section_length iter iter_perm). unfold unique_section.
    rewrite unique_rows_length by lia.
    rewrite counting_unique_length, counting_size.
    change (newlines header_ranked) with 1%nat.
    change (newlines header_unique) with 2%nat. lia.
  - intros r Hr. apply newlines_ranked_line.
    apply (ranked_section_entry iter iter_perm) in Hr as [Hlook _].
    assert (Hin : row_stem r ∈ tokens).
    { destruct (decide (row_stem r ∈ tokens)) as [|Hnot]; [done|].
      apply counting_lookup_None in Hnot. congruence. }
    rewrite Forall_forall in Hwords. by destruct (Hwords _ Hin).
Qed.

End Lines.

Lemma report_line_count_witness :
  newlines (report_text map_to_list (λ _, "0.5") (counting (read_tokens "a b a")))
    = (3 + Nat.min 50 (distinct (read_tokens "a b a"))
         + distinct (read_tokens "a b a"))%nat.
Proof.
  apply (report_line_count map_to_list (λ m, reflexivity (map_to_list m))
           (λ _, "0.5") (λ _, eq_refl) "a b a").
  by vm_compute.
Defined.

(** ** The counting pass: order and growth *)

Lemma occurrences_perm w l1 l2 : l1 ≡ₚ l2 → occurrences w l1 = occurrences w l2.
Proof. intros Hp. unfold occurrences. by rewrite Hp. Qed.

Lemma occurrences_app w l1 l2 :
  occurrences w (l1 ++ l2) = (occurrences w l1 + occurrences w l2)%nat.
Proof. unfold occurrences. by rewrite filter_app, length_app. Qed.

(** X20. The table and the total do not depend on the order of the words:
    two inputs with the same words, each as many times, end with the same
    frequency table and the same [totalWordCount]. *)
Theorem counting_order_independent (tokens1 tokens2 : list string) :
  tokens1 ≡ₚ tokens2 →
  stemHash (counting tokens1) = stemHash (counting tokens2) ∧
  totalWordCount (counting tokens1) = totalWordCount (counting tokens2).
Proof.
  intros Hp. split.
  - apply map_eq. intros w.
    by rewrite !counting_lookup_wrap, (occurrences_perm w _ _ Hp).
  - by rewrite !counting_total, Hp.
Qed.

Lemma counting_order_independent_witness :
  stemHash (counting ["a"; "b"; "a"]) = stemHash (counting ["b"; "a"; "a"]) ∧
  totalWordCount (counting ["a"; "b"; "a"]) = totalWordCount (counting ["b"; "a"; "a"]).
Proof.
  apply (counting_order_independent ["a"; "b"; "a"] ["b"; "a"; "a"]).
  apply perm_swap.
Defined.

(** X21. Reading more words never takes back what was recorded: the
    first-seen positions recorded so far stay as a prefix of the final
    ones, and, while no counter overflows, a count in the table never
    decreases. *)
Theorem counting_only_grows (tokens1 tokens2 : list string) :
  uniqueWordCount (counting tokens1)
    `prefix_of` uniqueWordCount (counting (tokens1 ++ tokens2)) ∧
  (Z.of_nat (length (tokens1 ++ tokens2)) ≤ INT_MAX →
   ∀ w c, stemHash (counting tokens1) !! w = Some c →
     ∃ c', stemHash (counting (tokens1 ++ tokens2)) !! w = Some c' ∧ c ≤ c').
Proof.
  split.
  - induction tokens2 as [|x tokens2 IH] using rev_ind.
    + by rewrite app_nil_r.
    + rewrite app_assoc, counting_snoc. simpl.
      case_decide; [by apply prefix_app_r|done].
  - intros Hlen w c. rewrite !counting_lookup_wrap, occurrences_app.
    rewrite length_app in Hlen.
    pose proof (occurrences_le w tokens1). pose proof (occurrences_le w tokens2).
    case_decide as H1; [done|]. intros [= <-].
    rewrite decide_False by lia. eexists. split; [done|].
    rewrite !wrap_int_id by (unfold INT_MAX in *; lia). lia.
Qed.

Lemma counting_only_grows_witness :
  uniqueWordCount (counting ["a"; "b"])
    `prefix_of` uniqueWordCount (counting (["a"; "b"] ++ ["a"; "c"])) ∧
  ∀ w c, stemHash (counting ["a"; "b"]) !! w = Some c →
    ∃ c', stemHash (counting (["a"; "b"] ++ ["a"; "c"])) !! w = Some c' ∧ c ≤ c'.
Proof.
  split.
  - apply (proj1 (counting_only_grows ["a"; "b"] ["a"; "c"])).
  - apply (proj2 (counting_only_grows ["a"; "b"] ["a"; "c"])). by vm_compute.
Defined.

(** ** A file of one repeated word *)

Lemma float_div_self m e :
  float_div (S754_finite false m e) (S754_finite false m e)
    = S754_finite false 8388608 (-23).
Proof.
  unfold float_div, SFdiv, SFdiv_core_binary.
  replace (Zdigits2 (Z.pos m) + e - (Zdigits2 (Z.pos m) + e)) with 0 by lia.
  replace (e - e) with 0 by lia. simpl Z.min. simpl (0 - _).
  assert (Hdiv : Z.div_eucl (Z.shiftl (Z.pos m) 24) (Z.pos m) = (16777216, 0)).
  { rewrite (surjective_pairing (Z.div_eucl _ _)).
    change (Z.div_eucl ?a ?b).1 with (a `div` b).
    change (Z.div_eucl ?a ?b).2 with (a `mod` b).
    rewrite Z.shiftl_mul_pow2 by lia. rewrite Z.mul_comm.
    by rewrite Z.div_mul, Z.mod_mul by lia. }
  change (Z.min (fexp 24 128 0) 0) with (-24).
  change (0 - -24) with 24. cbv iota beta.
  change (IntDef.Z.div_eucl ?a ?b) with (Z.div_eucl a b).
  rewrite Hdiv. unfold new_location, new_location_even, new_location_odd.
  by destruct (Z.even (Z.pos m)).
Qed.

Lemma occurrences_replicate w x n :
  occurrences w (replicate n x) = if decide (x = w) then n else 0%nat.
Proof.
  unfold occurrences. induction n as [|n IH]; simpl.
  - by case_decide.
  - rewrite filter_cons. by case_decide; simpl; rewrite IH.
Qed.

Section OneWord.

Variable iter : gmap string Z → list (string * Z).
Hypothesis iter_perm : ∀ m, iter m ≡ₚ map_to_list m.

(** X22. A file that repeats one word, fewer than 2^24 times, gets a single
    ranked row: the word, its count, rank 1 and probability exactly 1. *)
Theorem one_word_probability_one (w : string) (n : nat) :
  (0 < n)%nat → Z.of_nat n < 2 ^ 24 →
  ranked_section iter (counting (replicate n w))
    = [RankedRow w (Z.of_nat n) 1 (S754_finite false 8388608 (-23))].
Proof.
  intros Hpos Hsmall.
  assert (Hwrap : wrap_int (Z.of_nat n) = Z.of_nat n).
  { apply wrap_int_id. unfold INT_MAX. lia. }
  assert (Htable : stemHash (counting (replicate n w)) = {[w := Z.of_nat n]}).
  { apply map_eq. intros x.
    rewrite counting_lookup_wrap, occurrences_replicate, lookup_singleton.
    destruct (decide (w = x)) as [->|Hne].
    - rewrite decide_False by lia. by rewrite Hwrap.
    - done. }
  assert (Htotal : totalWordCount (counting (replicate n w)) = Z.of_nat n).
  { by rewrite counting_total, length_replicate. }
  assert (Hiter : iter {[w := Z.of_nat n]} = [(w, Z.of_nat n)]).
  { apply Permutation_singleton_r. by rewrite iter_perm, map_to_list_singleton. }
  unfold ranked_section, stemFreq. rewrite Htable, Htotal, Hiter. simpl.
  destruct (Z.of_nat n) as [|p|p] eqn:Hn; [lia| |lia].
  destruct (float_of_int_small p Hsmall) as (m & e & -> & _).
  by rewrite float_div_self.
Qed.

End OneWord.

Lemma one_word_probability_one_witness :
  ranked_section map_to_list (counting (replicate 3 "la"))
    = [RankedRow "la" (Z.of_nat 3) 1 (S754_finite false 8388608 (-23))].
Proof.
  apply (one_word_probability_one map_to_list (λ m, reflexivity (map_to_list m))
           "la" 3); [lia|by vm_compute].
Defined.

(** ** Beyond [INT_MAX] words: the counters wrap around *)

Lemma unique_replicate w n :
  (0 < n)%nat → uniqueWordCount (counting (replicate n w)) = [1].
Proof.
  destruct n as [|n]; [lia|]. intros _. induction n as [|n IH].
  - unfold counting. simpl. by rewrite lookup_empty.
  - rewrite replicate_S_end, counting_snoc. simpl.
    rewrite decide_False; [done|].
    rewrite counting_lookup_None. intros Hnot. apply Hnot. by left.
Qed.

Lemma total_replicate w n :
  totalWordCount (counting (replicate n w)) = wrap_int (Z.of_nat n).
Proof. by rewrite counting_total, length_replicate. Qed.

Lemma positions_after_2_31 w n :
  Z.of_nat n = 2 ^ 31 →
  uniqueWordCount (counting (replicate n w)) = [1] ∧
  totalWordCount (counting (replicate n w)) = -2147483648.
Proof.
  intros Hn. split; [apply unique_replicate; lia|].
  by rewrite total_replicate, Hn.
Qed.

(** C10, as the spec has it, fails on the code.  After 2^31 copies of one
    word the only recorded position is 1 while [totalWordCount] has wrapped
    around to -2147483648: the position does not lie between 1 and the
    final [totalWordCount]. *)
Lemma positions_past_INT_MAX :
  uniqueWordCount (counting (replicate (Z.to_nat (2 ^ 31)) "a")) = [1] ∧
  totalWordCount (counting (replicate (Z.to_nat (2 ^ 31)) "a")) = -2147483648 ∧
  ¬ Forall (λ u, 1 ≤ u ≤ totalWordCount
                            (counting (replicate (Z.to_nat (2 ^ 31)) "a")))
      (uniqueWordCount (counting (replicate (Z.to_nat (2 ^ 31)) "a"))).
Proof.
  destruct (positions_after_2_31 "a" (Z.to_nat (2 ^ 31))) as [Hpos Htotal];
    [apply Z2Nat.id; lia|].
  rewrite Hpos, Htotal. split; [reflexivity|]. split; [reflexivity|].
  intros Hall. apply Forall_cons in Hall as [Hone _]. lia.
Qed.

Section WrapAround.

Variable iter : gmap string Z → list (string * Z).
Hypothesis iter_perm : ∀ m, iter m ≡ₚ map_to_list m.

Lemma rows_after_2_32 (w : string) (n : nat) :
  Z.of_nat n = 2 ^ 32 →
  totalWordCount (counting (replicate n w)) = 0 ∧
  ranked_section iter (counting (replicate n w)) = [RankedRow w 0 1 S754_nan].
Proof.
  intros Hn.
  assert (Hwrap : wrap_int (Z.of_nat n) = 0) by by rewrite Hn.
  assert (Htotal : totalWordCount (counting (replicate n w)) = 0).
  { by rewrite total_replicate. }
  assert (Htable : stemHash (counting (replicate n w)) = {[w := 0]}).
  { apply map_eq. intros x.
    rewrite counting_lookup_wrap, occurrences_replicate, lookup_singleton.
    destruct (decide (w = x)) as [->|Hne]; [|done].
    rewrite decide_False by lia. by rewrite Hwrap. }
  assert (Hiter : iter {[w := 0]} = [(w, 0)]).
  { apply Permutation_singleton_r. by rewrite iter_perm, map_to_list_singleton. }
  split; [done|].
  unfold ranked_section, stemFreq. by rewrite Htable, Htotal, Hiter.
Qed.

(** C8. Some input ends the counting pass with [totalWordCount] 0 and makes
    the writer divide by zero: after 2^32 copies of one word the [int]
    counters have wrapped around to 0 while the table holds an entry, so a
    row is written, with frequency 0, and its probability is 0 divided by a
    zero [twc], not a number.  No shorter input does it. *)
Theorem division_by_zero_after_wrap_around :
  (∃ tokens,
     Z.of_nat (length tokens) = 2 ^ 32 ∧
     totalWordCount (counting tokens) = 0 ∧
     divides_by_zero iter (counting tokens) ∧
     ranked_section iter (counting tokens) = [RankedRow "a" 0 1 S754_nan]) ∧
  (∀ tokens, Z.of_nat (length tokens) < 2 ^ 32 →
     ¬ divides_by_zero iter (counting tokens)).
Proof.
  split.
  - destruct (rows_after_2_32 "a" (Z.to_nat (2 ^ 32))) as [Htotal Hrows];
      [apply Z2Nat.id; lia|].
    exists (replicate (Z.to_nat (2 ^ 32)) "a").
    split; [rewrite length_replicate; apply Z2Nat.id; lia|].
    split; [exact Htotal|]. split; [|exact Hrows].
    unfold divides_by_zero. rewrite Htotal, Hrows. split; [reflexivity|].
    discriminate.
  - intros tokens Hlen [Hz Hrows].
    assert (Htot : totalWordCount (counting tokens) = 0).
    { destruct (decide (totalWordCount (counting tokens) = 0)) as [|Hne]; [done|].
      apply float_of_int_nonzero in Hne. congruence. }
    apply counting_no_words in Htot as ->; [|done].
    apply Hrows. by apply ranked_section_start.
Qed.

End WrapAround.

Lemma division_by_zero_after_wrap_around_witness :
  (∃ tokens,
     Z.of_nat (length tokens) = 2 ^ 32 ∧
     totalWordCount (counting tokens) = 0 ∧
     divides_by_zero map_to_list (counting tokens) ∧
     ranked_section map_to_list (counting tokens) = [RankedRow "a" 0 1 S754_nan]) ∧
  (∀ tokens, Z.of_nat (length tokens) < 2 ^ 32 →
     ¬ divides_by_zero map_to_list (counting tokens)).
Proof.
  apply (division_by_zero_after_wrap_around map_to_list). intros m. reflexivity.
Defined.
